(** * dlnap: discovery of DLNA/UPnP renderers and the two playback commands

    A shallow embedding of [dlnap.py], following its Python 3 branch
    ([py3]): a [str] is a sequence of code points, [bytes] a sequence
    of octets, [str.encode()] and [bytes.decode()] are strict UTF-8.

    Layout: text primitives, the fragment of [re] the source uses, the
    four extractors, the transport helpers with their socket
    operations logged, the device class, [discover], and then the
    properties. *)

From Stdlib Require Import List NArith ZArith Bool Lia.
From Stdlib Require Import Strings.String Strings.Ascii Strings.Byte.
From Stdlib Require Import Numbers.DecimalString.
From Stdlib Require Numbers.DecimalZ.
Import ListNotations.

Set Implicit Arguments.

(** ** Text *)

(** A code point; Python admits the values below [0x110000]. *)
Definition char := N.
Definition str := list char.
Definition bytes := list byte.

(** A source literal (every literal of the program is ASCII); the
    double quote is written [QUOTE]. *)
Definition lit (s : string) : str :=
  map N_of_ascii (list_ascii_of_string s).

Arguments lit s%_string.

Definition QUOTE : str := [34%N].
Definition SPACE : char := 32%N.
Definition LF : char := 10%N.
Definition CRLF : str := [13%N; 10%N].

(** [len(s)] *)
Definition len (A : Type) (s : list A) : nat := List.length s.

Fixpoint str_eqb (a b : str) : bool :=
  match a, b with
  | [], [] => true
  | x :: a', y :: b' => N.eqb x y && str_eqb a' b'
  | _, _ => false
  end.

(** [s.startswith(p)] *)
Fixpoint startswith (s p : str) {struct p} : bool :=
  match p, s with
  | [], _ => true
  | x :: p', y :: s' => N.eqb x y && startswith s' p'
  | _ :: _, [] => false
  end.

(** The rest of [s] after the prefix [p], when [s] starts with [p]. *)
Fixpoint strip_prefix (p s : str) {struct p} : option str :=
  match p, s with
  | [], _ => Some s
  | x :: p', y :: s' => if N.eqb x y then strip_prefix p' s' else None
  | _ :: _, [] => None
  end.

(** [x in s] on two strings: [x] occurs in [s] as a contiguous,
    case-sensitive run of code points. *)
Fixpoint str_in (x s : str) : bool :=
  startswith s x ||
  match s with
  | [] => false
  | _ :: s' => str_in x s'
  end.

(** [s.replace(old, new)]: every non-overlapping occurrence, scanning
    from the left; [skip] counts the code points of a matched
    occurrence still to be dropped. *)
Fixpoint replace_from (old new : str) (skip : nat) (s : str) : str :=
  match s with
  | [] => []
  | c :: s' =>
      match skip with
      | S k => replace_from old new k s'
      | O =>
          if startswith s old
          then new ++ replace_from old new (len old - 1) s'
          else c :: replace_from old new O s'
      end
  end.

Definition replace (old new s : str) : str :=
  match old with
  | [] => new ++ flat_map (fun c => c :: new) s
  | _ :: _ => replace_from old new O s
  end.

(** [s.split(sep)] for a non-empty [sep]. *)
Fixpoint split_from (sep : str) (skip : nat) (s : str) : list str :=
  match s with
  | [] => [[]]
  | c :: s' =>
      match skip with
      | S k => split_from sep k s'
      | O =>
          if startswith s sep
          then [] :: split_from sep (len sep - 1) s'
          else match split_from sep O s' with
               | l :: ls => (c :: l) :: ls
               | [] => [[c]]
               end
      end
  end.

Definition split (sep s : str) : list str := split_from sep O s.

(** [sep.join(parts)] *)
Fixpoint join (sep : str) (parts : list str) : str :=
  match parts with
  | [] => []
  | [p] => p
  | p :: ps => p ++ sep ++ join sep ps
  end.

(** ['{}'.format(n)] for an integer. *)
Definition str_of_Z (z : Z) : str := lit (NilZero.string_of_int (Z.to_int z)).

(** ['{}'.format(x)] for a value that may be [None]. *)
Definition fmt_opt (A : Type) (f : A -> str) (x : option A) : str :=
  match x with
  | Some a => f a
  | None => lit "None"
  end.

(** ** UTF-8 *)

Definition byte_of (n : N) : option byte := Byte.of_N n.

Definition opt_bind (A B : Type) (x : option A) (f : A -> option B) : option B :=
  match x with
  | Some a => f a
  | None => None
  end.

Fixpoint opt_all (A : Type) (l : list (option A)) : option (list A) :=
  match l with
  | [] => Some []
  | x :: l' =>
      match x, opt_all l' with
      | Some a, Some r => Some (a :: r)
      | _, _ => None
      end
  end.

(** The octets of one code point; [None] for a surrogate or a value
    outside Unicode, where [str.encode()] raises. *)
Definition utf8_char (c : char) : option bytes :=
  (if c <? 0x80 then opt_all [byte_of c]
   else if c <? 0x800 then
     opt_all [byte_of (0xC0 + c / 0x40); byte_of (0x80 + c mod 0x40)]
   else if c <? 0x10000 then
     if (0xD800 <=? c) && (c <? 0xE000) then None
     else opt_all [byte_of (0xE0 + c / 0x1000);
                   byte_of (0x80 + (c / 0x40) mod 0x40);
                   byte_of (0x80 + c mod 0x40)]
   else if c <? 0x110000 then
     opt_all [byte_of (0xF0 + c / 0x40000);
              byte_of (0x80 + (c / 0x1000) mod 0x40);
              byte_of (0x80 + (c / 0x40) mod 0x40);
              byte_of (0x80 + c mod 0x40)]
   else None)%N.

(** [s.encode()] *)
Fixpoint encode (s : str) : option bytes :=
  match s with
  | [] => Some []
  | c :: s' =>
      match utf8_char c, encode s' with
      | Some b, Some r => Some (b ++ r)
      | _, _ => None
      end
  end.

Definition is_cont (b : N) : bool := ((0x80 <=? b) && (b <=? 0xBF))%N.
Definition in_range (lo hi b : N) : bool := ((lo <=? b) && (b <=? hi))%N.
Definition low6 (b : N) : N := (b mod 0x40)%N.

(** [b.decode()]: strict UTF-8, [None] where Python raises
    [UnicodeDecodeError] (stray or missing continuation octets,
    overlong forms, surrogates, values above [0x10FFFF]). *)
Fixpoint decode_N (b : list N) : option str :=
  match b with
  | [] => Some []
  | b0 :: r0 =>
      if (b0 <? 0x80)%N then option_map (cons b0) (decode_N r0)
      else match r0 with
      | [] => None
      | b1 :: r1 =>
          if in_range 0xC2 0xDF b0 then
            if is_cont b1
            then option_map (cons ((b0 mod 0x20) * 0x40 + low6 b1)%N) (decode_N r1)
            else None
          else match r1 with
          | [] => None
          | b2 :: r2 =>
              if in_range 0xE0 0xEF b0 then
                if (if (b0 =? 0xE0)%N then in_range 0xA0 0xBF b1
                    else if (b0 =? 0xED)%N then in_range 0x80 0x9F b1
                    else is_cont b1) && is_cont b2
                then option_map
                       (cons ((b0 mod 0x10) * 0x1000 + low6 b1 * 0x40 + low6 b2)%N)
                       (decode_N r2)
                else None
              else match r2 with
              | [] => None
              | b3 :: r3 =>
                  if in_range 0xF0 0xF4 b0 then
                    if (if (b0 =? 0xF0)%N then in_range 0x90 0xBF b1
                        else if (b0 =? 0xF4)%N then in_range 0x80 0x8F b1
                        else is_cont b1) && is_cont b2 && is_cont b3
                    then option_map
                           (cons ((b0 mod 0x08) * 0x40000 + low6 b1 * 0x1000
                                  + low6 b2 * 0x40 + low6 b3)%N)
                           (decode_N r3)
                    else None
                  else None
              end
          end
      end
  end.

Definition decode (b : bytes) : option str := decode_N (map Byte.to_N b).

(** ** The fragment of [re] used by the extractors

    Literal text, a one-character class, a greedy star over a
    one-character class, concatenation and a capturing group. The
    matcher backtracks in the order of Python's engine: a greedy star
    first takes as many characters as it can and gives them back one
    at a time while the rest of the pattern fails. *)

Inductive regex : Type :=
| Lit (l : str)
| Cls (p : char -> bool)
| Star (p : char -> bool)
| Seq (r1 r2 : regex)
| Group (r : regex).

(** [.] without [re.DOTALL]: anything but a line feed. *)
Definition dot (c : char) : bool := negb (N.eqb c LF).

Definition Plus (p : char -> bool) : regex := Seq (Cls p) (Star p).

Fixpoint star_greedy (A : Type) (p : char -> bool) (k : str -> option A)
         (s : str) : option A :=
  match s with
  | c :: s' =>
      if p c
      then match star_greedy p k s' with
           | Some r => Some r
           | None => k s
           end
      else k s
  | [] => k s
  end.

(** A match in progress: the text still to read and the groups closed
    so far. *)
Definition cont := str -> list str -> option (list str * str).

Fixpoint rmatch (r : regex) (k : cont) (s : str) (gs : list str)
  : option (list str * str) :=
  match r with
  | Lit l =>
      match strip_prefix l s with
      | Some s' => k s' gs
      | None => None
      end
  | Cls p =>
      match s with
      | c :: s' => if p c then k s' gs else None
      | [] => None
      end
  | Star p => star_greedy p (fun s' => k s' gs) s
  | Seq a b => rmatch a (rmatch b k) s gs
  | Group a =>
      rmatch a (fun s' gs' => k s' (gs' ++ [firstn (len s - len s') s])) s gs
  end.

(** A match of [r] that starts exactly at the head of [s]: its groups
    and the text after it. *)
Definition match_here (r : regex) (s : str) : option (list str * str) :=
  rmatch r (fun s' gs => Some (gs, s')) s [].

(** [re.findall(r, s)] for a pattern with one group: the group of
    every non-overlapping match, from the left. After a match the scan
    resumes where it ended (one further on when it was empty). *)
Fixpoint findall_from (fuel : nat) (r : regex) (s : str) : list str :=
  match fuel with
  | O => []
  | S fuel' =>
      match match_here r s with
      | Some (gs, rest) =>
          hd [] gs ::
          (if Nat.ltb (len rest) (len s)
           then findall_from fuel' r rest
           else match s with
                | [] => []
                | _ :: s' => findall_from fuel' r s'
                end)
      | None =>
          match s with
          | [] => []
          | _ :: s' => findall_from fuel' r s'
          end
      end
  end.

Definition findall (r : regex) (s : str) : list str :=
  findall_from (S (len s)) r s.

(** ** Exceptions *)

Inductive exn : Type :=
| TypeError
| ValueError
| OverflowError
| UnicodeDecodeError
| UnicodeEncodeError
| OSError
| UnboundLocalError
| Exception (msg : str).

(** What a call does: it returns, it raises, or (for the discovery
    loop only) it is still running when the recorded events end. *)
Inductive result (A : Type) : Type :=
| Ok (a : A)
| Raise (e : exn)
| Running.

Arguments Ok {A} a.
Arguments Raise {A} e.
Arguments Running {A}.

(** ** Constants *)

Definition SSDP_GROUP : str * Z := (lit "239.255.255.250", 1900%Z).
Definition URN_AVTransport : str :=
  lit "urn:schemas-upnp-org:service:AVTransport:1".

(** The longest run of digits that [int] converts: the value of
    [sys.get_int_max_str_digits()] the interpreter starts with. *)
Definition max_str_digits : nat := 4300.

(** The table of [decimal_digit] below restricted to ASCII, for
    running the program on concrete text. *)
Definition ascii_decimal (c : char) : option N :=
  if ((48 <=? c) && (c <=? 57))%N then Some (c - 48)%N else None.

(** ** Extractors *)

Section Port.

(** The decimal value of a code point of Unicode category Nd, the
    characters [\d] matches and [int] reads; the table belongs to
    the runtime, not to the program. *)
Variable decimal_digit : char -> option N.

Definition is_digit (c : char) : bool :=
  match decimal_digit c with
  | Some _ => true
  | None => false
  end.

(** The number that a run of digits writes in base ten. *)
Definition decimal_value (s : str) : Z :=
  fold_left
    (fun acc c =>
       match decimal_digit c with
       | Some v => (10 * acc + Z.of_N v)%Z
       | None => acc
       end)
    s 0%Z.

(** [int(s)] on a run of digits: its value, or [ValueError] when the
    run has more digits than [int] converts. *)
Definition int_of (s : str) : result Z :=
  if Nat.ltb max_str_digits (len s) then Raise ValueError
  else Ok (decimal_value s).

(** The pattern of [_get_port]: [http://], any run, a colon, a
    group of one or more digits, any run. *)
Definition re_port : regex :=
  Seq (Lit (lit "http://"))
      (Seq (Star dot)
           (Seq (Lit (lit ":")) (Seq (Group (Plus is_digit)) (Star dot)))).

Definition _get_port (location : str) : result Z :=
  match findall re_port location with
  | p :: _ => int_of p
  | [] => Ok 80%Z
  end.

End Port.

(** The pattern of [_get_control_url]: the [serviceType] element of
    the URN, any run, the [controlURL] start tag, a group holding any
    run, and the [controlURL] end tag. Every backslash of the source
    pattern, and of [re.escape], stands before a punctuation mark and
    denotes that mark. *)
Definition re_control_url : regex :=
  Seq (Lit (lit "<serviceType>" ++ URN_AVTransport ++ lit "</serviceType>"))
      (Seq (Star dot)
           (Seq (Lit (lit "<controlURL>"))
                (Seq (Group (Star dot)) (Lit (lit "</controlURL>"))))).

Definition _get_control_url (raw : str) : str :=
  match findall re_control_url (replace [LF] [] raw) with
  | u :: _ => u
  | [] => []
  end.

Definition _get_location_url (raw : str) : str :=
  match find (fun d => startswith d (lit "LOCATION:")) (split CRLF raw) with
  | Some d => replace (lit "LOCATION: ") [] d
  | None => []
  end.

(** The pattern of [_get_friendly_name]: the start tag, a group
    holding any run, and the end tag. *)
Definition re_friendly_name : regex :=
  Seq (Lit (lit "<friendlyName>"))
      (Seq (Group (Star dot)) (Lit (lit "</friendlyName>"))).

Definition _get_friendly_name (raw : str) : str :=
  match findall re_friendly_name raw with
  | n :: _ => n
  | [] => lit "Unknown"
  end.

(** ** Socket operations *)

Inductive proto : Type := UDP | TCP.

(** The calls that open, address, write to or close a socket of the
    program's own, in the order they are made; a call is recorded
    whether or not it then raises. Waiting and reading ([select],
    [recvfrom]) are not in the log: they are the turns of [event]
    below. Nor is the fetch of a description, which [urlopen] makes
    on a socket of its own: it is the [urlopen] argument of the
    constructor. *)
Inductive op : Type :=
| OpSocket (p : proto)
| OpSendto (payload : bytes) (to : str * Z)
| OpConnect (to : str * option Z)
| OpSendall (payload : bytes)
| OpClose (p : proto).

(** ** Transport helpers *)

(** How the network treats one datagram socket. *)
Inductive udp_fate : Type :=
| UdpFine
| UdpNoSocket
| UdpNoSendto.

(** A generator function under [contextmanager] whose single [yield]
    stands outside any [try]: the statements before the [yield], with
    the value yielded, and the statements after it. *)
Record generator_cm (R : Type) : Type := {
  before_yield : result R * list op;
  after_yield : R -> list op
}.

(** The socket handle; the program holds one at a time. *)
Inductive socket : Type := Sock (p : proto).

Definition _send_udp (fate : udp_fate) (to : str * Z) (payload : str)
  : generator_cm socket :=
  {| before_yield :=
       match fate with
       | UdpNoSocket => (Raise OSError, [OpSocket UDP])
       | _ =>
           match encode payload with
           | None => (Raise UnicodeEncodeError, [OpSocket UDP])
           | Some b =>
               match fate with
               | UdpNoSendto => (Raise OSError, [OpSocket UDP; OpSendto b to])
               | _ => (Ok (Sock UDP), [OpSocket UDP; OpSendto b to])
               end
           end
       end;
     after_yield := fun sock => match sock with Sock p => [OpClose p] end |}.

(** [with g as x: body]. On entry the generator runs to its [yield].
    When the body ends normally the generator is resumed and runs the
    statements after the [yield]. When the body raises, the exception
    is thrown into the generator at the [yield]; no handler encloses
    it there, so it leaves the generator at once and the statements
    after the [yield] are not run. *)
Definition with_ (R A : Type) (g : generator_cm R) (body : R -> result A)
  : result A * list op :=
  match before_yield g with
  | (Ok r, ops) =>
      match body r with
      | Ok a => (Ok a, ops ++ after_yield g r)
      | Raise e => (Raise e, ops)
      | Running => (Running, ops)
      end
  | (Raise e, ops) => (Raise e, ops)
  | (Running, ops) => (Running, ops)
  end.

(** How one stream connection goes: all is well; [socket.socket]
    raises; [connect] cannot read the host it is given (a null
    character in it, a name that the [idna] codec refuses); the name
    does not resolve; the connection is not made; [sendall] fails. *)
Inductive tcp_fate : Type :=
| TcpFine
| TcpNoSocket
| TcpNoHost
| TcpNoAddress
| TcpNoConnect
| TcpNoSendall.

(** The fates of the successive connections, the next one first. *)
Definition network := nat -> tcp_fate.

Definition next (net : network) : network := fun n => net (S n).

(** A command: it consumes fates and makes socket calls. *)
Definition io (A : Type) := network -> result A * network * list op.

Definition bind (A B : Type) (m : io A) (f : A -> io B) : io B :=
  fun net =>
    match m net with
    | (Ok a, net', ops) =>
        match f a net' with
        | (r, net'', ops') => (r, net'', ops ++ ops')
        end
    | (Raise e, net', ops) => (Raise e, net', ops)
    | (Running, net', ops) => (Running, net', ops)
    end.

Notation "m ;; k" := (bind m (fun _ => k))
  (at level 61, right associativity).

(** The port numbers that [connect] takes. *)
Definition valid_port (p : Z) : bool := ((0 <=? p) && (p <=? 65535))%Z.

(** The numbers that fit the C [int] which [connect] reads the port
    into. *)
Definition fits_int (p : Z) : bool :=
  ((-2147483648 <=? p) && (p <=? 2147483647))%Z.

(** [try: socket; connect; sendall(payload.encode()) finally: close].
    When [socket.socket] itself raises, [sock] is unbound in the
    [finally] clause. [connect] first reads its argument: a host it
    cannot read or a port that is [None] makes it raise [TypeError],
    a port that does not fit an [int] [OverflowError]. It then
    resolves the host, and only then checks the range of the port;
    a port out of range makes it raise [OverflowError] before the
    connection is tried. The payload is encoded after [connect] has
    returned. *)
Definition _send_tcp (to : str * option Z) (payload : str) : io unit :=
  fun net =>
    let stopped (e : exn) : result unit * list op :=
      (Raise e, [OpSocket TCP; OpConnect to; OpClose TCP]) in
    let run :=
      match net O with
      | TcpNoSocket => (Raise UnboundLocalError, [OpSocket TCP])
      | TcpNoHost => stopped TypeError
      | fate =>
          match snd to with
          | None => stopped TypeError
          | Some p =>
              if negb (fits_int p) then stopped OverflowError
              else
                match fate with
                | TcpNoAddress => stopped OSError
                | _ =>
                    if negb (valid_port p) then stopped OverflowError
                    else
                      match fate with
                      | TcpNoConnect => stopped OSError
                      | _ =>
                          match encode payload with
                          | None => stopped UnicodeEncodeError
                          | Some b =>
                              match fate with
                              | TcpNoSendall =>
                                  (Raise OSError,
                                   [OpSocket TCP; OpConnect to; OpSendall b;
                                    OpClose TCP])
                              | _ =>
                                  (Ok tt,
                                   [OpSocket TCP; OpConnect to; OpSendall b;
                                    OpClose TCP])
                              end
                          end
                      end
                end
          end
      end in
    (fst run, next net, snd run).

(** ** The device *)

Section Device.

(** The table that [_get_port] reads digits with. *)
Variable decimal_digit : char -> option N.

Record DlnapDevice : Type := {
  raw : str;
  ip : str;
  port : option Z;
  control_url : option str;
  name : option str;
  has_av_transport : bool;
  location : str;
  desc_xml : option str
}.

(** [DlnapDevice(raw, ip)]. [urlopen] is the network seen through
    [urlopen(location).read()]: the body of the document, or [None]
    when either call raises an [Exception]. The datagram is decoded
    before the [try]; inside it the attributes are assigned one by
    one, so whatever raises there leaves the later ones as they were
    set before the [try]: a port that [int] refuses leaves [port] at
    [None] and nothing is fetched; a fetch that fails leaves [name]
    and [control_url] at [None] and [has_av_transport] at [False].
    The handler only prints, and standard output is taken to accept
    what it is given. *)
Definition DlnapDevice_init (data : bytes) (addr : str)
           (urlopen : str -> option bytes) : result DlnapDevice :=
  match decode data with
  | None => Raise UnicodeDecodeError
  | Some text =>
      let loc := _get_location_url text in
      match _get_port decimal_digit loc with
      | Ok p =>
          match opt_bind (urlopen loc) decode with
          | Some xml =>
              Ok {| raw := text; ip := addr; port := Some p;
                    control_url := Some (_get_control_url xml);
                    name := Some (_get_friendly_name xml);
                    has_av_transport :=
                      str_in (lit "<serviceType>" ++ URN_AVTransport
                                  ++ lit "</serviceType>") xml;
                    location := loc; desc_xml := Some xml |}
          | None =>
              Ok {| raw := text; ip := addr; port := Some p;
                    control_url := None; name := None;
                    has_av_transport := false;
                    location := loc; desc_xml := None |}
          end
      | Raise _ =>
          Ok {| raw := text; ip := addr; port := None;
                control_url := None; name := None;
                has_av_transport := false;
                location := loc; desc_xml := None |}
      | Running => Running
      end
  end.

(** [==] on two values that are a string or [None]. *)
Definition opt_str_eqb (a b : option str) : bool :=
  match a, b with
  | Some x, Some y => str_eqb x y
  | None, None => true
  | _, _ => false
  end.

(** [__eq__] *)
Definition DlnapDevice_eq (a d : DlnapDevice) : bool :=
  opt_str_eqb (name a) (name d) && str_eqb (ip a) (ip d).

Definition indent (n : nat) (s : str) : str := repeat SPACE n ++ s.

Definition soap_head : list str :=
  [ lit "<?xml version=" ++ QUOTE ++ lit "1.0" ++ QUOTE ++ lit " encoding="
        ++ QUOTE ++ lit "utf-8" ++ QUOTE ++ lit "?>";
    indent 9 (lit "<s:Envelope xmlns:s=" ++ QUOTE
                  ++ lit "http://schemas.xmlsoap.org/soap/envelope/" ++ QUOTE
                  ++ lit " s:encodingStyle=" ++ QUOTE
                  ++ lit "http://schemas.xmlsoap.org/soap/encoding/" ++ QUOTE
                  ++ lit ">");
    indent 12 (lit "<s:Body>") ].

Definition soap_tail : list str :=
  [ indent 12 (lit "</s:Body>"); indent 9 (lit "</s:Envelope>") ].

(** The body of [_set_av], the template with its three holes filled. *)
Definition set_av_payload (url : str) (instance_id : Z) : str :=
  join [LF]
    (soap_head ++
     [ indent 15 (lit "<u:SetAVTransportURI xmlns:u=" ++ QUOTE
                      ++ URN_AVTransport ++ QUOTE ++ lit ">");
       indent 18 (lit "<InstanceID>" ++ str_of_Z instance_id
                      ++ lit "</InstanceID>");
       indent 18 (lit "<CurrentURI>" ++ url ++ lit "</CurrentURI>");
       indent 18 (lit "<CurrentURIMetaData />");
       indent 15 (lit "</u:SetAVTransportURI>") ]
     ++ soap_tail).

(** The body of [_play]. *)
Definition play_payload (instance_id : Z) : str :=
  join [LF]
    (soap_head ++
     [ indent 15 (lit "<u:Play xmlns:u=" ++ QUOTE ++ URN_AVTransport
                      ++ QUOTE ++ lit ">");
       indent 18 (lit "<InstanceID>" ++ str_of_Z instance_id
                      ++ lit "</InstanceID>");
       indent 18 (lit "<Speed>1</Speed>");
       indent 15 (lit "</u:Play>") ]
     ++ soap_tail).

(** The lines both commands put before the body; [action] is the
    name after the [#] of [SOAPACTION], [n] what [len(payload)]
    gave. *)
Definition request_lines (d : DlnapDevice) (action : str) (n : nat)
  : list str :=
  [ lit "POST " ++ fmt_opt (fun u => u) (control_url d) ++ lit " HTTP/1.1";
    lit "User-Agent: dlnap/0.1";
    lit "Accept: */*";
    lit "Content-Type: text/xml; charset=" ++ QUOTE ++ lit "utf-8" ++ QUOTE;
    lit "HOST: " ++ ip d ++ lit ":" ++ fmt_opt str_of_Z (port d);
    lit "Content-Length: " ++ str_of_Z (Z.of_nat n);
    lit "SOAPACTION: " ++ QUOTE ++ URN_AVTransport ++ lit "#" ++ action
        ++ QUOTE;
    lit "Connection: close";
    [] ].

(** The text [_set_av] hands to [_send_tcp] (named [header] there). *)
Definition set_av_request (d : DlnapDevice) (url : str) (instance_id : Z)
  : str :=
  let payload := set_av_payload url instance_id in
  join CRLF
    (request_lines d (lit "SetAVTransportURI") (len payload) ++ [payload]).

Definition play_request (d : DlnapDevice) (instance_id : Z) : str :=
  let payload := play_payload instance_id in
  join CRLF (request_lines d (lit "Play") (len payload) ++ [payload]).

Definition _set_av (d : DlnapDevice) (url : str) (instance_id : Z) : io unit :=
  _send_tcp (ip d, port d) (set_av_request d url instance_id).

Definition _play (d : DlnapDevice) (instance_id : Z) : io unit :=
  _send_tcp (ip d, port d) (play_request d instance_id).

Definition play (d : DlnapDevice) (url : str) : io unit :=
  _set_av d url 0 ;; _play d 0.

(** ** Discovery *)

(** One turn of the loop of [discover], as the outside world decides
    it: the deadline has passed; or it has not and [select] reports
    the socket readable, [recvfrom] then giving a datagram and the
    sender's address, and [urlopen] being what the network answers
    while the device is built; or [select] reports it readable and
    [recvfrom] raises; or [select] reports the socket in error only;
    or [select] reports nothing. *)
Inductive event : Type :=
| Timeout
| Readable (data : bytes) (addr : str) (urlopen : str -> option bytes)
| Unreadable
| Errored
| Idle.

(** [not name or name is None or name in d.name]; the last test
    raises [TypeError] on a device whose [name] is [None]. *)
Definition keeps (wanted : option str) (d : DlnapDevice) : result bool :=
  match wanted with
  | None => Ok true
  | Some [] => Ok true
  | Some (c :: f) =>
      match name d with
      | Some n => Ok (str_in (c :: f) n)
      | None => Raise TypeError
      end
  end.

(** [d in devices] *)
Definition device_in (d : DlnapDevice) (devices : list DlnapDevice) : bool :=
  existsb (fun x => DlnapDevice_eq x d) devices.

(** The [while True] loop, started with the list [devices]. *)
Fixpoint loop (wanted : option str) (devices : list DlnapDevice)
         (events : list event) : result (list DlnapDevice) :=
  match events with
  | [] => Running
  | Timeout :: _ => Ok devices
  | Readable data addr urlopen :: rest =>
      match DlnapDevice_init data addr urlopen with
      | Ok d =>
          if device_in d devices then loop wanted devices rest
          else match keeps wanted d with
               | Ok true => loop wanted (devices ++ [d]) rest
               | Ok false => loop wanted devices rest
               | Raise e => Raise e
               | Running => Running
               end
      | Raise e => Raise e
      | Running => Running
      end
  | Unreadable :: _ => Raise OSError
  | Errored :: _ => Raise (Exception (lit "Getting response failed"))
  | Idle :: rest => loop wanted devices rest
  end.

(** The M-SEARCH request. *)
Definition msearch (st : str) (mx : Z) : str :=
  join CRLF
    [ lit "M-SEARCH * HTTP/1.1";
      lit "HOST: " ++ fst SSDP_GROUP ++ lit ":" ++ str_of_Z (snd SSDP_GROUP);
      lit "Accept: */*";
      lit "MAN: " ++ QUOTE ++ lit "ssdp:discover" ++ QUOTE;
      lit "ST: " ++ st;
      lit "MX: " ++ str_of_Z mx;
      [];
      [] ].

(** [discover(name, timeout, st, mx)]: what it returns or raises, and
    the calls it made on its socket. The clock readings and [timeout]
    are present through the [Timeout] events. *)
Definition discover (wanted : option str) (st : str) (mx : Z)
           (fate : udp_fate) (events : list event)
  : result (list DlnapDevice) * list op :=
  with_ (_send_udp fate SSDP_GROUP (msearch st mx))
        (fun sock => loop wanted [] events).


End Device.

(** ** Notions used in the statements *)

(** The pair that [__eq__] compares. *)
Definition key (d : DlnapDevice) : option str * str := (name d, ip d).

(** How many devices of a list are equal to [d]. *)
Definition count (d : DlnapDevice) (devices : list DlnapDevice) : nat :=
  len (filter (fun x => DlnapDevice_eq x d) devices).

(** The description of the device that sent [text] cannot be had:
    [urlopen], [read] or the decoding of the body raises. *)
Definition fetch_fails (urlopen : str -> option bytes) (text : str) : Prop :=
  opt_bind (urlopen (_get_location_url text)) decode = None.

(** The turns that leave the loop running whatever the devices are:
    nothing to read, or a datagram that decodes. *)
Definition passes (e : event) : bool :=
  match e with
  | Idle => true
  | Readable data _ _ =>
      match decode data with
      | Some _ => true
      | None => false
      end
  | Timeout | Unreadable | Errored => false
  end.

(** A result without its value. *)
Definition outcome (A : Type) (r : result A) : result unit :=
  match r with
  | Ok _ => Ok tt
  | Raise e => Raise e
  | Running => Running
  end.

(** The device has a name and [w] occurs in it. *)
Definition name_has (w : str) (d : DlnapDevice) : bool :=
  match name d with
  | Some n => str_in w n
  | None => false
  end.

(** The [SOAPACTION] header line of a request for [action]. *)
Definition soap_action (action : str) : str :=
  lit "SOAPACTION: " ++ QUOTE ++ URN_AVTransport ++ lit "#" ++ action ++ QUOTE.

(** The octets [b] are a request for [action] whose body holds
    [element]: they encode a text in which the [SOAPACTION] line of
    [action] begins a line and is followed by the last header line
    and the blank line, with [element] somewhere in what comes after
    the blank line. *)
Definition carries (b : bytes) (action element : str) : Prop :=
  exists head before after,
    encode (head ++ CRLF ++ soap_action action ++ CRLF
                 ++ lit "Connection: close" ++ CRLF ++ CRLF
                 ++ before ++ element ++ after)
    = Some b.

(** ** Sample data for the concrete runs *)

(** The octets of a text that can be encoded. *)
Definition octets (s : str) : bytes :=
  match encode s with
  | Some b => b
  | None => []
  end.

Definition sample_response : str :=
  join CRLF
    [ lit "HTTP/1.1 200 OK";
      lit "LOCATION: http://10.0.0.5:80/desc.xml";
      lit "ST: upnp:rootdevice";
      [];
      [] ].

(** A network on which no description can be fetched. *)
Definition unreachable : str -> option bytes := fun _ => None.

(** A network that answers every fetch with the document [xml]. *)
Definition serves (xml : str) : str -> option bytes :=
  fun _ => Some (octets xml).

Definition sample_description : str :=
  join [LF]
    [ lit "<root>";
      lit "<friendlyName>Living Room TV</friendlyName>";
      lit "<service>";
      lit "<serviceType>urn:schemas-upnp-org:service:AVTransport:1</serviceType>";
      lit "<controlURL>/ctrl</controlURL>";
      lit "</service>";
      lit "</root>" ].

(** A description on one line that lists two services, AVTransport
    first. *)
Definition two_services : str :=
  lit "<serviceList><service><serviceType>urn:schemas-upnp-org:service:AVTransport:1</serviceType><controlURL>/av</controlURL></service><service><serviceType>urn:schemas-upnp-org:service:RenderingControl:1</serviceType><controlURL>/rc</controlURL></service></serviceList>".

(** A description on one line with an embedded device. *)
Definition two_names : str :=
  lit "<device><friendlyName>Living Room TV</friendlyName><deviceList><device><friendlyName>Tuner</friendlyName></device></deviceList></device>".

(** A response whose LOCATION header has no space after the colon. *)
Definition tight_response : str :=
  join CRLF
    [ lit "HTTP/1.1 200 OK";
      lit "LOCATION:http://10.0.0.5:80/desc.xml";
      [];
      [] ].

(** The url [http://h/e.mp3] with an acute accent on the [e]
    (U+00E9). *)
Definition accented_url : str := lit "http://h/" ++ [233%N] ++ lit ".mp3".

Definition sample_device : DlnapDevice :=
  {| raw := sample_response; ip := lit "10.0.0.5"; port := Some 80%Z;
     control_url := Some (lit "/ctrl"); name := Some (lit "Living Room TV");
     has_av_transport := true; location := lit "http://10.0.0.5:80/desc.xml";
     desc_xml := Some sample_description |}.

(** Every code point is below 128. *)
Definition is_ascii (s : str) : bool := forallb (fun c => (c <? 128)%N) s.

(** A network on which every connection goes through. *)
Definition all_fine : network := fun _ => TcpFine.

(** A network that refuses the first connection. *)
Definition refuses_first : network :=
  fun n => match n with O => TcpNoConnect | S _ => TcpFine end.

(** The connections a run opened: one per call of [_send_tcp]. *)
Definition connections (ops : list op) : nat :=
  len (filter (fun o => match o with OpSocket TCP => true | _ => false end) ops).

(** One response, from a device whose description cannot be fetched,
    and then the deadline. *)
Definition lone_unreachable : list event :=
  [Readable (octets sample_response) (lit "10.0.0.5") unreachable; Timeout].

(** The sample response, from a device that serves the sample
    description. *)
Definition sample_readable : event :=
  Readable (octets sample_response) (lit "10.0.0.5") (serves sample_description).

(** ** Further notions used in the statements *)

(** No proper suffix of [l] is a prefix of [l]: two occurrences of
    [l] in a text cannot overlap. *)
Definition unbordered (l : str) : bool :=
  forallb (fun j => negb (startswith l (skipn (S j) l))) (seq 0 (len l - 1)).

(** [l] occurs in [s] somewhere after the head of [s]. *)
Definition occurs_later (l s : str) : bool :=
  match s with
  | [] => false
  | _ :: s' => str_in l s'
  end.

(** The text up to the first line feed. *)
Fixpoint first_line (s : str) : str :=
  match s with
  | [] => []
  | c :: s' => if dot c then c :: first_line s' else []
  end.

(** The tags the extractors look for. *)
Definition NAME_START : str := lit "<friendlyName>".
Definition NAME_END : str := lit "</friendlyName>".
Definition SERVICE_AVT : str :=
  lit "<serviceType>" ++ URN_AVTransport ++ lit "</serviceType>".
Definition URL_START : str := lit "<controlURL>".
Definition URL_END : str := lit "</controlURL>".

Definition LOCATION_ : str := lit "LOCATION:".
Definition LOCATION_SP : str := lit "LOCATION: ".
Definition COLON : char := 58%N.
Definition HTTP : str := lit "http://".

(** Somewhere in [s] a colon stands right before a digit. *)
Fixpoint colon_digit (digit : char -> bool) (s : str) : bool :=
  match s with
  | [] => false
  | c :: s' =>
      (N.eqb c COLON && match s' with d :: _ => digit d | [] => false end)
      || colon_digit digit s'
  end.

(** [s] does not begin with a digit. *)
Definition no_digit_first (digit : char -> bool) (s : str) : bool :=
  match s with
  | [] => true
  | c :: _ => negb (digit c)
  end.

(** A continuation keeps the groups within [n] code points, when
    started on a text and on groups that are. *)
Definition within (n : nat) (k : cont) : Prop :=
  forall s gs r,
    len s <= n ->
    Forall (fun g => len g <= n) gs ->
    k s gs = Some r ->
    Forall (fun g => len g <= n) (fst r).

(** A location that names a port too long for [int]. *)
Definition long_port_response : str :=
  join CRLF
    [ lit "HTTP/1.1 200 OK";
      LOCATION_SP ++ HTTP ++ lit "10.0.0.5" ++ [COLON]
                  ++ repeat 57%N 4301 ++ lit "/desc.xml";
      [];
      [] ].

(** ** The rest of the program *)

(** [__repr__] *)
Definition DlnapDevice_repr (d : DlnapDevice) : str :=
  fmt_opt (fun n => n) (name d) ++ lit " @ " ++ ip d.

(** The devices that answer before the deadline, in the order of
    their answers; [None] when the loop does not get to the deadline
    (a datagram that cannot be read or decoded, a socket in error,
    events that end too soon). *)
Fixpoint arrivals (dd : char -> option N) (events : list event)
  : option (list DlnapDevice) :=
  match events with
  | [] => None
  | Timeout :: _ => Some []
  | Readable data addr urlopen :: rest =>
      match DlnapDevice_init dd data addr urlopen, arrivals dd rest with
      | Ok d, Some l => Some (d :: l)
      | _, _ => None
      end
  | Unreadable :: _ => None
  | Errored :: _ => None
  | Idle :: rest => arrivals dd rest
  end.

(** [l] is [m] with some of its elements left out. *)
Fixpoint sublist (A : Type) (l m : list A) : Prop :=
  match l, m with
  | [], _ => True
  | _ :: _, [] => False
  | x :: l', y :: m' => (x = y /\ sublist l' m') \/ sublist l m'
  end.

(** The calls a socket sees between its creation and its closing. *)
Definition in_use (o : op) : bool :=
  match o with
  | OpConnect _ | OpSendall _ | OpSendto _ _ => true
  | OpSocket _ | OpClose _ => false
  end.

(** The turns that end a discovery in an exception whatever came
    before: the socket in error, a datagram that cannot be read, a
    datagram that is not UTF-8. *)
Definition fatal (e : event) : bool :=
  match e with
  | Errored | Unreadable => true
  | Readable data _ _ =>
      match decode data with
      | Some _ => false
      | None => true
      end
  | Timeout | Idle => false
  end.

Definition is_idle (e : event) : bool :=
  match e with
  | Idle => true
  | _ => false
  end.

(** ** The command line *)

Definition version : str := lit "0.2".

(** What [usage()] prints. *)
Definition usage : str :=
  lit "dlna.py [--list] [-d[evice] <name>] [-t[imeout] <seconds>] [--play <url>]".

(** The value bound to [timeout]: the number the script starts from,
    or the text of a [-t] option, which is passed on as it is. *)
Inductive timeout_value : Type :=
| Number
| Text (arg : str).

(** The four variables the option loop sets. *)
Record settings : Type := {
  device : str;
  url : str;
  timeout : timeout_value;
  action : str
}.

Definition defaults : settings :=
  {| device := []; url := []; timeout := Number; action := [] |}.

(** [opt in (a, b)] on a tuple of strings. *)
Definition is_one_of (opt : str) (names : list str) : bool :=
  existsb (fun n => str_eqb n opt) names.

(** One turn of [for opt, arg in opts]: the lines printed and the
    exit status when the turn ends the script, the variables after it
    otherwise. The last four tests are written [opt in ('--list')]:
    the parentheses make no tuple, so each is a substring test on the
    option name. *)
Definition read_option (s : settings) (o : str * str)
  : (list str * Z) + settings :=
  let (opt, arg) := o in
  if is_one_of opt [lit "-h"; lit "--help"] then inl ([usage], 0%Z)
  else if is_one_of opt [lit "-v"; lit "--version"] then inl ([version], 0%Z)
  else
    let s1 :=
      if is_one_of opt [lit "-d"; lit "--device"]
      then {| device := arg; url := url s; timeout := timeout s;
              action := action s |}
      else if is_one_of opt [lit "-t"; lit "--timeout"]
      then {| device := device s; url := url s; timeout := Text arg;
              action := action s |}
      else s in
    inr (if str_in opt (lit "--list")
         then {| device := device s1; url := url s1; timeout := timeout s1;
                 action := lit "list" |}
         else if str_in opt (lit "--play")
         then {| device := device s1; url := arg; timeout := timeout s1;
                 action := lit "play" |}
         else if str_in opt (lit "--pause")
         then {| device := device s1; url := url s1; timeout := timeout s1;
                 action := lit "pause" |}
         else if str_in opt (lit "--stop")
         then {| device := device s1; url := url s1; timeout := timeout s1;
                 action := lit "stop" |}
         else s1).

Fixpoint read_options (opts : list (str * str)) (s : settings)
  : (list str * Z) + settings :=
  match opts with
  | [] => inr s
  | o :: rest =>
      match read_option s o with
      | inl quit => inl quit
      | inr s' => read_options rest s'
      end
  end.

Section Command_line.

Variable decimal_digit : char -> option N.

(** [discover] with its [timeout] argument. The first statement of
    the loop compares a number with it; a text there raises
    [TypeError] before anything is read, inside the [with]. *)
Definition discover_timeout (wanted : option str) (t : timeout_value)
           (st : str) (mx : Z) (fate : udp_fate) (events : list event)
  : result (list DlnapDevice) * list op :=
  match t with
  | Number => discover decimal_digit wanted st mx fate events
  | Text _ =>
      with_ (_send_udp fate SSDP_GROUP (msearch st mx))
            (fun sock => Raise TypeError)
  end.

(** An exception that ends the script: one of those above, or the
    [AttributeError] of a method the class does not have. *)
Inductive failure : Type :=
| Raised (e : exn)
| AttributeError (attribute : str).

Inductive ending : Type :=
| Exit (code : Z)
| Done
| Dies (f : failure)
| Unfinished.

(** A run of the script: the lines its own [print] calls wrote (those
    of the handler in the constructor are not among them), the
    socket calls, and how it ended. *)
Record run : Type := {
  said : list str;
  calls : list op;
  ended : ending
}.

(** [' {} {}'.format('+' if d.has_av_transport else '-', d)] *)
Definition device_line (d : DlnapDevice) : str :=
  lit " " ++ (if has_av_transport d then lit "+" else lit "-") ++ lit " "
      ++ DlnapDevice_repr d.

(** The block under [if __name__ == '__main__']. [parsed] is what
    [getopt.getopt] gave, [None] when it raised [GetoptError]. *)
Definition main (parsed : option (list (str * str))) (fate : udp_fate)
           (events : list event) (net : network) : run :=
  match parsed with
  | None => {| said := [usage]; calls := []; ended := Exit 1 |}
  | Some opts =>
      match read_options opts defaults with
      | inl (lines, code) =>
          {| said := lines; calls := []; ended := Exit code |}
      | inr s =>
          match discover_timeout (Some (device s)) (timeout s)
                                 (lit "ssdp:all") 3 fate events with
          | (Raise e, ops) =>
              {| said := []; calls := ops; ended := Dies (Raised e) |}
          | (Running, ops) =>
              {| said := []; calls := ops; ended := Unfinished |}
          | (Ok [], ops) =>
              {| said := [lit "No devices found."]; calls := ops;
                 ended := Exit 1 |}
          | (Ok (d :: others), ops) =>
              if is_one_of (action s) [[]; lit "list"]
              then {| said := lit "Discovered devices:"
                                  :: map device_line (d :: others);
                      calls := ops; ended := Exit 0 |}
              else if str_eqb (action s) (lit "play")
              then match play d (url s) net with
                   | (Ok _, _, ops') =>
                       {| said := [DlnapDevice_repr d]; calls := ops ++ ops';
                          ended := Done |}
                   | (Raise e, _, ops') =>
                       {| said := [DlnapDevice_repr d]; calls := ops ++ ops';
                          ended := Dies (Raised e) |}
                   | (Running, _, ops') =>
                       {| said := [DlnapDevice_repr d]; calls := ops ++ ops';
                          ended := Unfinished |}
                   end
              else if str_eqb (action s) (lit "pause")
              then {| said := [DlnapDevice_repr d]; calls := ops;
                      ended := Dies (AttributeError (lit "pause")) |}
              else if str_eqb (action s) (lit "stop")
              then {| said := [DlnapDevice_repr d]; calls := ops;
                      ended := Dies (AttributeError (lit "stop")) |}
              else {| said := [DlnapDevice_repr d]; calls := ops;
                      ended := Done |}
          end
      end
  end.

End Command_line.

(** The option names [getopt] can hand to the loop: the short and
    the long ones the script declares, long ones in full. *)
Definition option_names : list str :=
  [ lit "-h"; lit "-v"; lit "-d"; lit "-t";
    lit "--help"; lit "--version"; lit "--play"; lit "--pause";
    lit "--stop"; lit "--list"; lit "--device"; lit "--timeout" ].

(** Some option asks for the usage text or the version. *)
Definition asks_to_quit (opts : list (str * str)) : bool :=
  existsb (fun o => is_one_of (fst o)
                      [lit "-h"; lit "--help"; lit "-v"; lit "--version"])
          opts.

(** Some option gives a timeout. *)
Definition gives_timeout (opts : list (str * str)) : bool :=
  existsb (fun o => is_one_of (fst o) [lit "-t"; lit "--timeout"]) opts.

Unset Implicit Arguments.

(** * Properties *)

(** ** Text primitives *)

Lemma str_eqb_eq (a b : str) : str_eqb a b = true <-> a = b.
Proof.
  revert b; induction a as [|x a IH]; intros [|y b]; simpl;
    try (split; [discriminate | congruence]); try tauto.
  rewrite andb_true_iff, N.eqb_eq, IH.
  split; [intros [-> ->]; reflexivity | intros H; injection H; auto].
Qed.

Lemma str_eqb_refl (a : str) : str_eqb a a = true.
Proof. apply str_eqb_eq; reflexivity. Qed.

Lemma opt_str_eqb_eq (a b : option str) : opt_str_eqb a b = true <-> a = b.
Proof.
  destruct a as [x|], b as [y|]; simpl;
    try (split; [discriminate | congruence]); try tauto.
  rewrite str_eqb_eq; split; congruence.
Qed.

Lemma startswith_app (s p : str) :
  startswith s p = true <-> exists t, s = p ++ t.
Proof.
  revert s; induction p as [|x p IH]; intros s; simpl.
  - split; [intros _; exists s; reflexivity | reflexivity].
  - destruct s as [|y s].
    + split; [discriminate | intros [t H]; discriminate].
    + rewrite andb_true_iff, N.eqb_eq, IH. split.
      * intros [-> [t ->]]. exists t; reflexivity.
      * intros [t H]. injection H as -> ->. split; [reflexivity | exists t; reflexivity].
Qed.

Lemma strip_prefix_app (p s t : str) :
  strip_prefix p s = Some t <-> s = p ++ t.
Proof.
  revert s; induction p as [|x p IH]; intros s; simpl.
  - split; congruence.
  - destruct s as [|y s]; [split; discriminate|].
    destruct (N.eqb_spec x y) as [->|Hxy].
    + rewrite IH. split; [intros ->; reflexivity | intros H; injection H; auto].
    + split; [discriminate | intros H; injection H; intros; congruence].
Qed.

Lemma strip_prefix_startswith (p s t : str) :
  strip_prefix p s = Some t -> startswith s p = true.
Proof.
  intros H. apply startswith_app. exists t. apply strip_prefix_app, H.
Qed.

(** [x in s] holds exactly when [s] is some text, then [x], then some
    text. *)
Lemma str_in_spec (x s : str) :
  str_in x s = true <-> exists a b, s = a ++ x ++ b.
Proof.
  induction s as [|c s IH]; simpl.
  - rewrite orb_false_r, startswith_app. split.
    + intros [t H]. exists [], t. exact H.
    + intros [a [b H]]. destruct a; [exists b; exact H | discriminate].
  - rewrite orb_true_iff, startswith_app, IH. split.
    + intros [[t H] | [a [b H]]].
      * exists [], t. exact H.
      * exists (c :: a), b. simpl. rewrite H. reflexivity.
    + intros [a [b H]]. destruct a as [|c' a].
      * left. exists b. exact H.
      * right. injection H as _ H. exists a, b. exact H.
Qed.

Lemma str_in_app (x a b : str) : str_in x (a ++ x ++ b) = true.
Proof. apply str_in_spec. exists a, b. reflexivity. Qed.

(** ** Extractors *)

Lemma strip_prefix_none (p s : str) :
  startswith s p = false -> strip_prefix p s = None.
Proof.
  intros H. destruct (strip_prefix p s) as [t|] eqn:E; [|reflexivity].
  apply strip_prefix_startswith in E. congruence.
Qed.

(** A pattern that opens with literal text finds nothing in a text
    where that literal does not occur. *)
Lemma findall_absent (l : str) (r : regex) (fuel : nat) :
  forall s, str_in l s = false -> findall_from fuel (Seq (Lit l) r) s = [].
Proof.
  induction fuel as [|fuel IH]; intros s H; simpl; [reflexivity|].
  assert (Hs : startswith s l = false).
  { destruct s; simpl in H; apply orb_false_iff in H; tauto. }
  unfold match_here. simpl. rewrite (strip_prefix_none _ _ Hs).
  destruct s as [|c s]; [reflexivity|].
  apply IH. simpl in H. apply orb_false_iff in H. tauto.
Qed.

(** C9, at the failing input: a description on one line with two
    [friendlyName] elements. The text of the first element is
    [Living Room TV]; the function returns everything up to the end
    tag of the last one. *)
Theorem friendly_name_runs_to_last_end_tag :
  _get_friendly_name two_names
  = lit "Living Room TV</friendlyName><deviceList><device><friendlyName>Tuner"
  /\ _get_friendly_name two_names <> lit "Living Room TV".
Proof. split; vm_compute; [reflexivity | discriminate]. Qed.

Example friendly_name_single :
  _get_friendly_name (lit "<friendlyName>Living Room TV</friendlyName>")
  = lit "Living Room TV".
Proof. vm_compute. reflexivity. Qed.

(** X5. The second half of C9 holds: without the start tag the result is
    [Unknown]. *)
Lemma friendly_name_absent (xml : str) :
  str_in (lit "<friendlyName>") xml = false ->
  _get_friendly_name xml = lit "Unknown".
Proof.
  intros H. unfold _get_friendly_name, findall, re_friendly_name.
  rewrite findall_absent by exact H. reflexivity.
Qed.

(** C4, at the failing input: AVTransport is listed first, with
    control URL [/av], and RenderingControl after it. The function
    returns [/rc], the control URL of the last service. *)
Theorem control_url_of_last_service :
  _get_control_url two_services = lit "/rc"
  /\ _get_control_url two_services <> lit "/av".
Proof. split; vm_compute; [reflexivity | discriminate]. Qed.

Example control_url_across_lines :
  _get_control_url sample_description = lit "/ctrl".
Proof. vm_compute. reflexivity. Qed.

Example control_url_unrelated :
  _get_control_url
    (lit "<serviceType>urn:schemas-upnp-org:service:RenderingControl:1</serviceType><controlURL>/rc</controlURL>")
  = [].
Proof. vm_compute. reflexivity. Qed.

(** X7. The second half of C4 holds: when the [serviceType] element of
    the URN is not in the flattened description the result is
    empty. *)
Lemma control_url_absent (xml : str) :
  str_in (lit "<serviceType>" ++ URN_AVTransport ++ lit "</serviceType>")
         (replace [LF] [] xml) = false ->
  _get_control_url xml = [].
Proof.
  intros H. unfold _get_control_url, findall, re_control_url.
  rewrite findall_absent by exact H. reflexivity.
Qed.

(** C7, at the failing input: the header has no space after the
    colon. No line begins with [LOCATION: ], so the empty string is
    due; the function returns the whole line, header name included. *)
Theorem location_without_space :
  existsb (fun d => startswith d (lit "LOCATION: ")) (split CRLF tight_response)
  = false
  /\ _get_location_url tight_response
     = lit "LOCATION:http://10.0.0.5:80/desc.xml".
Proof. split; vm_compute; reflexivity. Qed.

Example location_sample :
  _get_location_url sample_response = lit "http://10.0.0.5:80/desc.xml".
Proof. vm_compute. reflexivity. Qed.

(** A second way C7 fails: the prefix is removed wherever it occurs
    in the line, not only at its head. *)
Example location_inner_occurrence :
  _get_location_url (lit "LOCATION: http://h/?q=LOCATION: x")
  = lit "http://h/?q=x".
Proof. vm_compute. reflexivity. Qed.

(** X9. When no line begins with [LOCATION:] the result is empty. *)
Lemma location_absent (text : str) :
  existsb (fun d => startswith d (lit "LOCATION:")) (split CRLF text) = false ->
  _get_location_url text = [].
Proof.
  intros H. unfold _get_location_url.
  destruct (find _ _) as [d|] eqn:E; [|reflexivity].
  apply find_some in E. destruct E as [Hin Hd].
  assert (X : existsb (fun d => startswith d (lit "LOCATION:")) (split CRLF text) = true)
    by (apply existsb_exists; exists d; auto).
  congruence.
Qed.

(** ** UTF-8 of the program's own text *)

Lemma byte_of_small (n : N) : (n < 256)%N -> exists b, byte_of n = Some b.
Proof.
  intros H. unfold byte_of. destruct (Byte.of_N n) as [b|] eqn:E.
  - exists b; reflexivity.
  - apply Byte.of_N_None_iff in E. lia.
Qed.

Lemma encode_app (a b : str) :
  encode (a ++ b) =
  match encode a, encode b with
  | Some x, Some y => Some (x ++ y)
  | _, _ => None
  end.
Proof.
  induction a as [|c a IH]; simpl.
  - destruct (encode b); reflexivity.
  - rewrite IH. destruct (utf8_char c), (encode a), (encode b);
      try reflexivity. rewrite app_assoc. reflexivity.
Qed.

Lemma utf8_char_latin (c : char) :
  (c < 256)%N -> utf8_char c <> None.
Proof.
  intros H. unfold utf8_char.
  destruct (N.ltb_spec c 0x80).
  - destruct (byte_of_small c) as [b Hb]; [lia|]. unfold opt_all. rewrite Hb. discriminate.
  - destruct (N.ltb_spec c 0x800); [|lia].
    assert (c / 0x40 < 4)%N by (apply N.Div0.div_lt_upper_bound; lia).
    assert (c mod 0x40 < 0x40)%N by (apply N.mod_lt; lia).
    destruct (byte_of_small (0xC0 + c / 0x40)) as [b1 Hb1]; [lia|].
    destruct (byte_of_small (0x80 + c mod 0x40)) as [b2 Hb2]; [lia|].
    unfold opt_all. rewrite Hb1, Hb2. discriminate.
Qed.

(** Every literal of the program can be encoded. *)
Lemma encode_lit (s : string) : encode (lit s) <> None.
Proof.
  unfold lit. induction s as [|a s IH]; simpl; [discriminate|].
  pose proof (utf8_char_latin (N_of_ascii a) (N_ascii_bounded a)) as H.
  destruct (utf8_char (N_of_ascii a)); [|congruence].
  destruct (encode _); [discriminate | congruence].
Qed.

Lemma encode_app_ok (a b : str) :
  encode a <> None -> encode b <> None -> encode (a ++ b) <> None.
Proof.
  intros Ha Hb. rewrite encode_app.
  destruct (encode a); [|congruence]. destruct (encode b); [discriminate|congruence].
Qed.

Lemma encode_msearch (st : str) (mx : Z) :
  encode st <> None -> encode (msearch st mx) <> None.
Proof.
  intros H. unfold msearch, join, str_of_Z, QUOTE, CRLF, SSDP_GROUP. simpl fst. simpl snd.
  repeat first [ apply encode_app_ok | apply encode_lit | exact H | discriminate ].
Qed.

(** ** Content-Length *)

Lemma is_ascii_app (a b : str) :
  is_ascii (a ++ b) = is_ascii a && is_ascii b.
Proof. apply forallb_app. Qed.

Lemma is_ascii_join (sep : str) (parts : list str) :
  is_ascii sep = true ->
  forallb is_ascii parts = true ->
  is_ascii (join sep parts) = true.
Proof.
  intros Hs. induction parts as [|p ps IH]; simpl; [reflexivity|].
  intros H. apply andb_true_iff in H. destruct H as [Hp Hps].
  destruct ps as [|q ps]; [exact Hp|].
  rewrite !is_ascii_app, Hp, Hs. simpl. apply IH, Hps.
Qed.

Lemma is_ascii_uint (d : Decimal.uint) :
  is_ascii (lit (NilEmpty.string_of_uint d)) = true.
Proof. induction d; simpl; auto. Qed.

Lemma is_ascii_str_of_Z (z : Z) : is_ascii (str_of_Z z) = true.
Proof.
  unfold str_of_Z, NilZero.string_of_int.
  destruct (Z.to_int z) as [d|d]; unfold NilZero.string_of_uint.
  - destruct d; try reflexivity; apply is_ascii_uint.
  - change (is_ascii (45%N :: lit
              match d with Decimal.Nil => "0" | _ => NilEmpty.string_of_uint d end)
            = true).
    simpl. destruct d; try reflexivity; apply is_ascii_uint.
Qed.

(** On ASCII text the octets are as many as the code points. *)
Lemma encode_ascii (s : str) :
  is_ascii s = true -> exists b, encode s = Some b /\ len b = len s.
Proof.
  unfold len. induction s as [|c s IH]; simpl; intros H.
  - exists []. auto.
  - apply andb_true_iff in H. destruct H as [Hc Hs].
    destruct (IH Hs) as [b [Hb Hl]].
    apply N.ltb_lt in Hc. unfold utf8_char.
    destruct (N.ltb_spec c 0x80); [|lia].
    destruct (byte_of_small c) as [x Hx]; [lia|].
    unfold opt_all. rewrite Hx, Hb. exists (x :: b). simpl. auto.
Qed.

Lemma set_av_payload_ascii (url : str) (instance_id : Z) :
  is_ascii url = true -> is_ascii (set_av_payload url instance_id) = true.
Proof.
  intros H. unfold set_av_payload. apply is_ascii_join; [reflexivity|].
  unfold indent. simpl.
  rewrite !is_ascii_app, H, is_ascii_str_of_Z. reflexivity.
Qed.

Lemma play_payload_ascii (instance_id : Z) :
  is_ascii (play_payload instance_id) = true.
Proof.
  unfold play_payload. apply is_ascii_join; [reflexivity|].
  unfold indent. simpl.
  rewrite !is_ascii_app, is_ascii_str_of_Z. reflexivity.
Qed.

(** The number both commands announce is [len(payload)]. *)
Lemma content_length_line (d : DlnapDevice) (action : str) (n : nat) :
  nth 5 (request_lines d action n) []
  = lit "Content-Length: " ++ str_of_Z (Z.of_nat n).
Proof. reflexivity. Qed.

(** C8, at the failing input: the url [accented_url]. The request
    announces 510, the number of code points of the body; the body
    that goes out after the blank line has 511 octets. *)
Theorem content_length_counts_code_points :
  exists head body,
    _set_av sample_device accented_url 0 all_fine
    = (Ok tt, next all_fine,
       [OpSocket TCP; OpConnect (lit "10.0.0.5", Some 80%Z);
        OpSendall (head ++ body); OpClose TCP])
    /\ encode (join CRLF (request_lines sample_device (lit "SetAVTransportURI") 510)
               ++ CRLF) = Some head
    /\ encode (set_av_payload accented_url 0) = Some body
    /\ len (set_av_payload accented_url 0) = 510
    /\ len body = 511.
Proof.
  eexists. eexists. split; [|split; [|split; [|split]]].
  2: vm_compute; reflexivity.
  2: vm_compute; reflexivity.
  - vm_compute. reflexivity.
  - vm_compute. reflexivity.
  - vm_compute. reflexivity.
Qed.

(** ** The play command *)

(** The paths through [_send_tcp]. *)
Ltac send_tcp_paths to payload net :=
  unfold _send_tcp;
  destruct (net O); destruct (snd to) as [?p|];
  try destruct (fits_int _) eqn:?; try destruct (valid_port _) eqn:?;
  destruct (encode payload) as [?b|]; cbn [fst snd negb].

(** What one call of [_send_tcp] does when it returns. *)
Lemma send_tcp_returns to payload net net' ops :
  _send_tcp to payload net = (Ok tt, net', ops) ->
  exists b,
    encode payload = Some b
    /\ net' = next net
    /\ ops = [OpSocket TCP; OpConnect to; OpSendall b; OpClose TCP].
Proof.
  send_tcp_paths to payload net; intros H; try discriminate;
    inversion H; subst; eexists; auto.
Qed.

(** Every call of [_send_tcp] opens one connection, however it
    ends. *)
Lemma send_tcp_one_connection to payload net :
  connections (snd (_send_tcp to payload net)) = 1.
Proof. send_tcp_paths to payload net; reflexivity. Qed.

(** What [_send_tcp] hands to [sendall] is the encoded payload. *)
Lemma send_tcp_sendall to payload net b :
  In (OpSendall b) (snd (_send_tcp to payload net)) ->
  encode payload = Some b.
Proof.
  send_tcp_paths to payload net; cbn [In];
    intros H; repeat (destruct H as [H|H]; try discriminate);
    try contradiction; injection H as ->; reflexivity.
Qed.

(** A call of [_send_tcp] returns or raises. *)
Lemma send_tcp_ends to payload net :
  fst (fst (_send_tcp to payload net)) = Ok tt
  \/ exists e, fst (fst (_send_tcp to payload net)) = Raise e.
Proof. send_tcp_paths to payload net; eauto. Qed.

Lemma connections_app (a b : list op) :
  connections (a ++ b) = connections a + connections b.
Proof. unfold connections, len. rewrite filter_app, length_app. reflexivity. Qed.

(** What both commands write before the body: the lines up to
    [Content-Length], that line with the number handed in, the
    [SOAPACTION] line, the closing line and the blank line. *)
Lemma request_cut (d : DlnapDevice) (action : str) (n : nat) (payload : str) :
  join CRLF (request_lines d action n ++ [payload])
  = join CRLF (firstn 5 (request_lines d action n))
    ++ CRLF ++ lit "Content-Length: " ++ str_of_Z (Z.of_nat n)
    ++ CRLF ++ soap_action action ++ CRLF ++ lit "Connection: close"
    ++ CRLF ++ CRLF ++ payload.
Proof.
  unfold request_lines, soap_action.
  cbn [app firstn join]. rewrite <- !app_assoc. reflexivity.
Qed.

Lemma join_cut (sep : str) (xs : list str) (y : str) (ys : list str) :
  xs <> [] -> ys <> [] ->
  join sep (xs ++ y :: ys) = (join sep xs ++ sep) ++ y ++ (sep ++ join sep ys).
Proof.
  intros Hx Hy. induction xs as [|x xs IH]; [congruence|].
  destruct xs as [|x' xs].
  - destruct ys as [|y' ys]; [congruence|].
    simpl. rewrite <- !app_assoc. reflexivity.
  - change (join sep ((x :: x' :: xs) ++ y :: ys))
      with (x ++ sep ++ join sep ((x' :: xs) ++ y :: ys)).
    rewrite IH by discriminate.
    change (join sep (x :: x' :: xs)) with (x ++ sep ++ join sep (x' :: xs)).
    rewrite <- !app_assoc. reflexivity.
Qed.

(** The body of [_set_av] holds the [CurrentURI] element with the
    url. *)
Lemma set_av_payload_cut (url : str) (instance_id : Z) :
  exists before after,
    set_av_payload url instance_id
    = before ++ (lit "<CurrentURI>" ++ url ++ lit "</CurrentURI>") ++ after.
Proof.
  unfold set_av_payload.
  match goal with
  | |- exists _ _, join _ (?h ++ [?a; ?b; indent 18 ?c; ?d; ?e] ++ ?t) = _ =>
      exists ((join [LF] (h ++ [a; b]) ++ [LF]) ++ repeat SPACE 18),
             ([LF] ++ join [LF] ([d; e] ++ t));
      replace (h ++ [a; b; indent 18 c; d; e] ++ t)
        with ((h ++ [a; b]) ++ indent 18 c :: ([d; e] ++ t))
        by (rewrite <- app_assoc; reflexivity)
  end.
  rewrite join_cut by discriminate.
  change (indent 18 (lit "<CurrentURI>" ++ url ++ lit "</CurrentURI>"))
    with (repeat SPACE 18 ++ lit "<CurrentURI>" ++ url ++ lit "</CurrentURI>").
  rewrite <- !app_assoc. reflexivity.
Qed.

(** The body of [_play] holds the [Speed] element with 1. *)
Lemma play_payload_cut (instance_id : Z) :
  exists before after,
    play_payload instance_id = before ++ lit "<Speed>1</Speed>" ++ after.
Proof.
  unfold play_payload.
  match goal with
  | |- exists _ _, join _ (?h ++ [?a; ?b; indent 18 ?c; ?d] ++ ?t) = _ =>
      exists ((join [LF] (h ++ [a; b]) ++ [LF]) ++ repeat SPACE 18),
             ([LF] ++ join [LF] ([d] ++ t));
      replace (h ++ [a; b; indent 18 c; d] ++ t)
        with ((h ++ [a; b]) ++ indent 18 c :: ([d] ++ t))
        by (rewrite <- app_assoc; reflexivity)
  end.
  rewrite join_cut by discriminate.
  change (indent 18 (lit "<Speed>1</Speed>"))
    with (repeat SPACE 18 ++ lit "<Speed>1</Speed>").
  rewrite <- !app_assoc. reflexivity.
Qed.

Lemma request_carries (d : DlnapDevice) (action payload element : str)
      (n : nat) (b : bytes) :
  (exists before after, payload = before ++ element ++ after) ->
  encode (join CRLF (request_lines d action n ++ [payload])) = Some b ->
  carries b action element.
Proof.
  intros [before [after ->]] H. rewrite request_cut in H.
  exists (join CRLF (firstn 5 (request_lines d action n)) ++ CRLF
               ++ lit "Content-Length: " ++ str_of_Z (Z.of_nat n)),
         before, after.
  rewrite <- !app_assoc. exact H.
Qed.

(** Whatever [_set_av] hands to [sendall] is a SetAVTransportURI
    request with the url in its body. *)
Lemma set_av_sends (d : DlnapDevice) (url : str) (instance_id : Z)
      (net : network) (b : bytes) :
  In (OpSendall b) (snd (_set_av d url instance_id net)) ->
  carries b (lit "SetAVTransportURI")
          (lit "<CurrentURI>" ++ url ++ lit "</CurrentURI>").
Proof.
  intros H. apply send_tcp_sendall in H.
  apply (request_carries d _ (set_av_payload url instance_id) _
           (len (set_av_payload url instance_id)));
    [apply set_av_payload_cut | exact H].
Qed.

(** Whatever [_play] hands to [sendall] is a Play request with
    [Speed] 1 in its body. *)
Lemma play_sends (d : DlnapDevice) (instance_id : Z) (net : network)
      (b : bytes) :
  In (OpSendall b) (snd (_play d instance_id net)) ->
  carries b (lit "Play") (lit "<Speed>1</Speed>").
Proof.
  intros H. apply send_tcp_sendall in H.
  apply (request_carries d _ (play_payload instance_id) _
           (len (play_payload instance_id)));
    [apply play_payload_cut | exact H].
Qed.

(** C6, the claim as written, on a network that refuses the first
    connection: the call makes one send, which raises, and the Play
    request never goes out. *)
Lemma play_first_send_refused :
  play sample_device (lit "http://h/a.mp3") refuses_first
  = (Raise OSError, next refuses_first,
     [OpSocket TCP; OpConnect (lit "10.0.0.5", Some 80%Z); OpClose TCP])
  /\ connections
       (snd (play sample_device (lit "http://h/a.mp3") refuses_first)) = 1.
Proof. split; reflexivity. Qed.

(** C6, amended. [play(url)] first makes the send of [_set_av], on
    one connection; whatever octets go out on it are a
    SetAVTransportURI request (its [SOAPACTION] line says so) whose
    body holds [url] in the [CurrentURI] element. If that send
    raises, the call raises the same and sends nothing more. If it
    returns, the send of [_play] follows on a second connection,
    whatever the device made of the first: nothing is read in
    between, the first connection being closed right after its
    [sendall]. Whatever octets go out on the second are a Play
    request whose body holds [Speed] 1. The call then has opened
    those two connections and no other. *)
Theorem play_sends_set_av_then_play d url net r1 net1 ops1 :
  _set_av d url 0 net = (r1, net1, ops1) ->
  connections ops1 = 1
  /\ (forall b, In (OpSendall b) ops1 ->
                carries b (lit "SetAVTransportURI")
                        (lit "<CurrentURI>" ++ url ++ lit "</CurrentURI>"))
  /\ (r1 = Ok tt \/ exists e, r1 = Raise e)
  /\ (forall e, r1 = Raise e -> play d url net = (Raise e, net1, ops1))
  /\ (r1 = Ok tt ->
      exists b1 r net2 ops2,
        encode (set_av_request d url 0) = Some b1
        /\ ops1 = [OpSocket TCP; OpConnect (ip d, port d); OpSendall b1;
                   OpClose TCP]
        /\ _play d 0 net1 = (r, net2, ops2)
        /\ (forall b, In (OpSendall b) ops2 ->
                      carries b (lit "Play") (lit "<Speed>1</Speed>"))
        /\ (r = Ok tt ->
            exists b2,
              encode (play_request d 0) = Some b2
              /\ ops2 = [OpSocket TCP; OpConnect (ip d, port d); OpSendall b2;
                         OpClose TCP])
        /\ play d url net = (r, net2, ops1 ++ ops2)
        /\ connections (ops1 ++ ops2) = 2).
Proof.
  intros H.
  split.
  { pose proof (send_tcp_one_connection (ip d, port d) (set_av_request d url 0) net)
      as C.
    unfold _set_av in H. rewrite H in C. exact C. }
  split.
  { intros b Hb. apply (set_av_sends d url 0 net b). rewrite H. exact Hb. }
  split.
  { pose proof (send_tcp_ends (ip d, port d) (set_av_request d url 0) net) as E.
    unfold _set_av in H. rewrite H in E. exact E. }
  split.
  { intros e ->. unfold play, bind. rewrite H. reflexivity. }
  intros ->.
  destruct (send_tcp_returns _ _ _ _ _ H) as [b1 [E1 [-> ->]]].
  destruct (_play d 0 (next net)) as [[r net2] ops2] eqn:E2.
  exists b1, r, net2, ops2.
  split; [exact E1|]. split; [reflexivity|]. split; [reflexivity|].
  split.
  { intros b Hb. apply (play_sends d 0 (next net) b). rewrite E2. exact Hb. }
  split.
  { intros ->. destruct (send_tcp_returns _ _ _ _ _ E2) as [b2 [Eb [_ ->]]].
    exists b2. auto. }
  split.
  - unfold play, bind. rewrite H, E2. reflexivity.
  - rewrite connections_app.
    pose proof (send_tcp_one_connection (ip d, port d) (play_request d 0) (next net))
      as C.
    unfold _play in E2. rewrite E2 in C. simpl in C. rewrite C. reflexivity.
Qed.

Lemma play_sends_set_av_then_play_witness :
  exists b1 b2,
    fst (fst (play sample_device (lit "http://h/a.mp3") all_fine)) = Ok tt
    /\ snd (play sample_device (lit "http://h/a.mp3") all_fine)
       = [OpSocket TCP; OpConnect (lit "10.0.0.5", Some 80%Z); OpSendall b1;
          OpClose TCP;
          OpSocket TCP; OpConnect (lit "10.0.0.5", Some 80%Z); OpSendall b2;
          OpClose TCP]
    /\ carries b1 (lit "SetAVTransportURI")
               (lit "<CurrentURI>" ++ lit "http://h/a.mp3" ++ lit "</CurrentURI>")
    /\ carries b2 (lit "Play") (lit "<Speed>1</Speed>").
Proof.
  assert (H : _set_av sample_device (lit "http://h/a.mp3") 0 all_fine
              = (Ok tt, next all_fine,
                 snd (_set_av sample_device (lit "http://h/a.mp3") 0 all_fine)))
    by (vm_compute; reflexivity).
  destruct (play_sends_set_av_then_play sample_device (lit "http://h/a.mp3")
              all_fine (Ok tt) (next all_fine) _ H)
    as [_ [S1 [_ [_ K]]]].
  destruct (K eq_refl) as [b1 [r [net2 [ops2 [_ [O1 [P [S2 [K2 [Hp _]]]]]]]]]].
  assert (R2 : r = Ok tt).
  { assert (X : fst (fst (_play sample_device 0 (next all_fine))) = Ok tt)
      by (vm_compute; reflexivity).
    rewrite P in X. exact X. }
  destruct (K2 R2) as [b2 [_ O2]].
  exists b1, b2. rewrite Hp. cbn [fst snd].
  split; [exact R2|]. split; [rewrite O1, O2; reflexivity|].
  split.
  - apply S1. rewrite O1. simpl. auto.
  - apply S2. rewrite O2. simpl. auto.
Defined.

(** ** Device identity *)


Lemma DlnapDevice_eq_key (a d : DlnapDevice) :
  DlnapDevice_eq a d = true <-> key a = key d.
Proof.
  unfold DlnapDevice_eq, key.
  rewrite andb_true_iff, opt_str_eqb_eq, str_eqb_eq.
  split; [intros [-> ->]; reflexivity | intros H; injection H; auto].
Qed.

Lemma device_in_key (d : DlnapDevice) (devices : list DlnapDevice) :
  device_in d devices = true <-> In (key d) (map key devices).
Proof.
  unfold device_in. rewrite existsb_exists, in_map_iff.
  split; intros [x [H1 H2]]; exists x.
  - apply DlnapDevice_eq_key in H2. auto.
  - split; [exact H2 | apply DlnapDevice_eq_key; exact H1].
Qed.


Lemma count_absent (d : DlnapDevice) (devices : list DlnapDevice) :
  ~ In (key d) (map key devices) -> count d devices = 0.
Proof.
  unfold count, len. induction devices as [|x r IH]; simpl; intros H.
  - reflexivity.
  - destruct (DlnapDevice_eq x d) eqn:E.
    + apply DlnapDevice_eq_key in E. exfalso. apply H. left. exact E.
    + apply IH. intros H'. apply H. right. exact H'.
Qed.

Lemma count_le_1 (d : DlnapDevice) (devices : list DlnapDevice) :
  NoDup (map key devices) -> count d devices <= 1.
Proof.
  induction devices as [|x r IH]; intros H.
  - unfold count, len; simpl; lia.
  - simpl in H. inversion H as [|k ks Hx Hr]; subst.
    unfold count, len in *; simpl.
    destruct (DlnapDevice_eq x d) eqn:E.
    + apply DlnapDevice_eq_key in E. rewrite E in Hx.
      pose proof (count_absent d r Hx) as H0. unfold count, len in H0.
      simpl. rewrite H0. lia.
    + apply IH, Hr.
Qed.

Lemma count_present (d : DlnapDevice) (devices : list DlnapDevice) :
  In (key d) (map key devices) -> 1 <= count d devices.
Proof.
  unfold count, len. induction devices as [|x r IH]; simpl; intros H.
  - contradiction.
  - destruct (DlnapDevice_eq x d) eqn:E.
    + simpl. lia.
    + destruct H as [H|H]; [|apply IH, H].
      apply DlnapDevice_eq_key in H. congruence.
Qed.

Lemma nodup_snoc (d : DlnapDevice) (devices : list DlnapDevice) :
  NoDup (map key devices) ->
  device_in d devices = false ->
  NoDup (map key (devices ++ [d])).
Proof.
  intros ND Ein. rewrite map_app. simpl. apply NoDup_app.
  - exact ND.
  - constructor; [intros []|constructor].
  - intros k Hk [<-|[]]. apply device_in_key in Hk. congruence.
Qed.

(** ** The discovery loop *)

Section Loop.

Variable dd : char -> option N.
Variable wanted : option str.

(** The loop only ever appends, and never appends a device equal
    to one it holds. *)
Lemma loop_extends (events : list event) :
  forall devices out,
    loop dd wanted devices events = Ok out ->
    NoDup (map key devices) ->
    NoDup (map key out) /\ exists more, out = devices ++ more.
Proof.
  induction events as [|e rest IH]; intros devices out H ND; simpl in H.
  - discriminate.
  - destruct e as [|data addr urlopen| | |].
    + injection H as <-. split; [exact ND | exists []; symmetry; apply app_nil_r].
    + destruct (DlnapDevice_init dd data addr urlopen) as [d| |]; try discriminate.
      destruct (device_in d devices) eqn:Ein; [apply IH; assumption|].
      destruct (keeps wanted d) as [[|]| |]; try discriminate.
      * destruct (IH _ _ H) as [ND' [more ->]];
          [apply nodup_snoc; assumption|].
        split; [exact ND'|]. exists (d :: more). rewrite <- app_assoc. reflexivity.
      * apply IH; assumption.
    + discriminate.
    + discriminate.
    + apply IH; assumption.
Qed.

(** Events before the deadline are all taken: a run that returns
    has gone through every event of a prefix without [Timeout]. *)
Lemma loop_prefix (pre events : list event) :
  forall devices out,
    ~ In Timeout pre ->
    loop dd wanted devices (pre ++ events) = Ok out ->
    NoDup (map key devices) ->
    exists devices',
      loop dd wanted devices' events = Ok out /\ NoDup (map key devices').
Proof.
  induction pre as [|e pre IH]; intros devices out NT H ND; simpl in H.
  - exists devices. auto.
  - assert (NT' : ~ In Timeout pre) by (intros X; apply NT; right; exact X).
    destruct e as [|data addr urlopen| | |].
    + exfalso. apply NT. left. reflexivity.
    + destruct (DlnapDevice_init dd data addr urlopen) as [d| |]; try discriminate.
      destruct (device_in d devices) eqn:Ein; [eapply IH; eassumption|].
      destruct (keeps wanted d) as [[|]| |]; try discriminate.
      * eapply IH; try eassumption. apply nodup_snoc; assumption.
      * eapply IH; eassumption.
    + discriminate.
    + discriminate.
    + eapply IH; eassumption.
Qed.

(** A response that is taken and that the filter keeps is in the
    list returned. *)
Lemma loop_readable_in data addr urlopen d (rest : list event) :
  forall devices out,
    loop dd wanted devices (Readable data addr urlopen :: rest) = Ok out ->
    DlnapDevice_init dd data addr urlopen = Ok d ->
    keeps wanted d = Ok true ->
    NoDup (map key devices) ->
    In (key d) (map key out).
Proof.
  intros devices out H Hd Hk ND. simpl in H. rewrite Hd, Hk in H.
  destruct (device_in d devices) eqn:Ein.
  - destruct (loop_extends _ _ _ H ND) as [_ [more ->]].
    rewrite map_app. apply in_or_app. left. apply device_in_key, Ein.
  - assert (ND' : NoDup (map key (devices ++ [d])))
      by (apply nodup_snoc; assumption).
    destruct (loop_extends _ _ _ H ND') as [_ [more ->]].
    rewrite !map_app. apply in_or_app. left. apply in_or_app. right. left. reflexivity.
Qed.

End Loop.

Section Discovery.

Variable dd : char -> option N.

Lemma get_port_ends (location : str) : _get_port dd location <> Running.
Proof.
  unfold _get_port, int_of. destruct (findall _ _); [discriminate|].
  destruct (Nat.ltb _ _); discriminate.
Qed.

Lemma init_decoded data addr urlopen text :
  decode data = Some text ->
  exists d, DlnapDevice_init dd data addr urlopen = Ok d
            /\ ip d = addr
            /\ (fetch_fails urlopen text -> name d = None).
Proof.
  intros H. unfold DlnapDevice_init, fetch_fails. rewrite H.
  pose proof (get_port_ends (_get_location_url text)) as E.
  destruct (_get_port dd (_get_location_url text)) as [p|e|]; [| |congruence].
  - destruct (opt_bind (urlopen (_get_location_url text)) decode) as [xml|];
      eexists; (split; [reflexivity|]); simpl; (split; [reflexivity|]);
      congruence.
  - eexists. repeat split.
Qed.

Lemma init_failed data addr urlopen text :
  decode data = Some text ->
  fetch_fails urlopen text ->
  exists d, DlnapDevice_init dd data addr urlopen = Ok d
            /\ ip d = addr /\ name d = None /\ control_url d = None
            /\ has_av_transport d = false.
Proof.
  intros H F. unfold DlnapDevice_init, fetch_fails in *. rewrite H, F.
  pose proof (get_port_ends (_get_location_url text)) as E.
  destruct (_get_port dd (_get_location_url text)) as [p|e|]; [| |congruence];
    eexists; repeat split.
Qed.

Lemma passes_init e :
  passes e = true ->
  e = Idle \/
  exists data addr urlopen d,
    e = Readable data addr urlopen /\ DlnapDevice_init dd data addr urlopen = Ok d.
Proof.
  destruct e as [|data addr urlopen| | |]; simpl; try discriminate; auto.
  destruct (decode data) as [text|] eqn:E; [|discriminate]. intros _. right.
  destruct (init_decoded data addr urlopen text E) as [d [Hd _]].
  exists data, addr, urlopen, d. auto.
Qed.

(** With a filter that is not empty, every device in the list has a
    name; a response whose fetch fails then reaches the substring
    test, and the test raises. *)
Lemma loop_unnamed c f pre data addr urlopen text post :
  forallb passes pre = true ->
  decode data = Some text ->
  fetch_fails urlopen text ->
  forall devices,
    Forall (fun d => name d <> None) devices ->
    loop dd (Some (c :: f)) devices (pre ++ Readable data addr urlopen :: post)
    = Raise TypeError.
Proof.
  intros Hpre Hdec Hfail.
  assert (Hnot : forall d devices,
             name d = None -> Forall (fun x => name x <> None) devices ->
             device_in d devices = false).
  { intros d devices Hn Hall. destruct (device_in d devices) eqn:E; [|reflexivity].
    apply device_in_key, in_map_iff in E. destruct E as [x [Hx Hin]].
    rewrite Forall_forall in Hall. specialize (Hall x Hin).
    unfold key in Hx. congruence. }
  induction pre as [|e pre IH]; intros devices Hall.
  - simpl. destruct (init_failed data addr urlopen text Hdec Hfail)
      as [d [-> [_ [Hn _]]]].
    rewrite (Hnot d devices Hn Hall). simpl. rewrite Hn. reflexivity.
  - simpl in Hpre. apply andb_true_iff in Hpre. destruct Hpre as [He Hpre].
    specialize (IH Hpre).
    destruct (passes_init e He) as [->|[da [ad [u [d [-> Hd]]]]]]; simpl.
    + apply IH, Hall.
    + rewrite Hd. destruct (device_in d devices); [apply IH, Hall|].
      destruct (name d) as [n|] eqn:Hn; [|reflexivity].
      destruct (str_in (c :: f) n); [|apply IH, Hall].
      apply IH. apply Forall_app. split; [exact Hall|].
      constructor; [congruence|constructor].
Qed.

Lemma keeps_eq wanted x d :
  DlnapDevice_eq x d = true -> keeps wanted x = keeps wanted d.
Proof.
  intros H. apply DlnapDevice_eq_key in H. unfold key in H.
  unfold keeps. injection H as -> _. reflexivity.
Qed.

(** Whatever the loop appends has passed the filter. *)
Lemma loop_kept wanted events :
  forall devices out,
    loop dd wanted devices events = Ok out ->
    Forall (fun d => keeps wanted d = Ok true) devices ->
    Forall (fun d => keeps wanted d = Ok true) out.
Proof.
  induction events as [|e rest IH]; intros devices out H K; simpl in H.
  - discriminate.
  - destruct e as [|data addr urlopen| | |]; try discriminate.
    + injection H as <-. exact K.
    + destruct (DlnapDevice_init dd data addr urlopen) as [d| |]; try discriminate.
      destruct (device_in d devices); [apply (IH _ _ H K)|].
      destruct (keeps wanted d) as [[|]| |] eqn:Ek; try discriminate.
      * apply (IH _ _ H). apply Forall_app. split; [exact K|].
        constructor; [exact Ek|constructor].
      * apply (IH _ _ H K).
    + apply (IH _ _ H K).
Qed.

(** An absent filter and an empty one are the same filter. *)
Lemma loop_empty_filter events :
  forall devices, loop dd (Some []) devices events = loop dd None devices events.
Proof.
  induction events as [|e rest IH]; intros devices; simpl; [reflexivity|].
  destruct e as [|data addr urlopen| | |]; try reflexivity; [|apply IH].
  destruct (DlnapDevice_init dd data addr urlopen); try reflexivity.
  destruct (device_in a devices); [apply IH|]. simpl. apply IH.
Qed.

Lemma name_has_eq w x d : DlnapDevice_eq x d = true -> name_has w x = name_has w d.
Proof.
  intros H. apply DlnapDevice_eq_key in H. unfold key in H.
  unfold name_has. injection H as -> _. reflexivity.
Qed.

Lemma device_in_filter w d devices :
  device_in d (filter (name_has w) devices)
  = name_has w d && device_in d devices.
Proof.
  unfold device_in. induction devices as [|x r IH]; simpl.
  - rewrite andb_false_r. reflexivity.
  - destruct (name_has w x) eqn:Ex; simpl; rewrite IH.
    + destruct (DlnapDevice_eq x d) eqn:E; simpl.
      * rewrite <- (name_has_eq w _ _ E), Ex. reflexivity.
      * reflexivity.
    + destruct (DlnapDevice_eq x d) eqn:E; simpl.
      * rewrite <- (name_has_eq w _ _ E), Ex. reflexivity.
      * reflexivity.
Qed.

(** When every device found has a name, discovery under a filter
    returns the devices of the unfiltered discovery whose name
    contains the filter, in the same order. *)
Lemma loop_filter c f events :
  forall devices out,
    loop dd None devices events = Ok out ->
    Forall (fun d => name d <> None) out ->
    NoDup (map key devices) ->
    loop dd (Some (c :: f)) (filter (name_has (c :: f)) devices) events
    = Ok (filter (name_has (c :: f)) out).
Proof.
  set (w := c :: f).
  induction events as [|e rest IH]; intros devices out H Hall ND; simpl in H.
  - discriminate.
  - destruct e as [|data addr urlopen| | |]; simpl.
    + injection H as <-. reflexivity.
    + destruct (DlnapDevice_init dd data addr urlopen) as [d| |]; try discriminate.
      rewrite device_in_filter.
      destruct (device_in d devices) eqn:Ein.
      * destruct (loop_extends dd None _ _ _ H ND) as [_ [more Hout]].
        assert (Hn : name d <> None).
        { apply device_in_key, in_map_iff in Ein. destruct Ein as [x [Hx Hin]].
          rewrite Forall_forall in Hall.
          assert (Hx' : name x <> None) by (apply Hall; rewrite Hout; apply in_or_app; auto).
          unfold key in Hx. congruence. }
        rewrite andb_true_r. destruct (name_has w d) eqn:Ew; [apply IH; assumption|].
        unfold keeps. subst w. destruct (name d) as [n|] eqn:En; [|congruence].
        unfold name_has in Ew. rewrite En in Ew. rewrite Ew. apply IH; assumption.
      * rewrite andb_false_r. simpl in H.
        assert (ND' : NoDup (map key (devices ++ [d])))
          by (apply nodup_snoc; assumption).
        destruct (loop_extends dd None _ _ _ H ND') as [_ [more Hout]].
        assert (Hn : name d <> None).
        { rewrite Forall_forall in Hall. apply Hall. rewrite Hout.
          apply in_or_app. left. apply in_or_app. right. left. reflexivity. }
        specialize (IH _ _ H Hall ND'). rewrite filter_app in IH. simpl in IH.
        unfold keeps. subst w. destruct (name d) as [n|] eqn:En; [|congruence].
        unfold name_has in IH at 2. rewrite En in IH.
        destruct (str_in (c :: f) n); [exact IH|].
        rewrite app_nil_r in IH. exact IH.
    + discriminate.
    + discriminate.
    + apply IH; assumption.
Qed.

(** Without a filter, whether the loop returns, raises or is
    still running is decided by the events alone. *)
Lemma loop_outcome_unfiltered events :
  forall devices devices',
    outcome (loop dd None devices events) = outcome (loop dd None devices' events).
Proof.
  induction events as [|e rest IH]; intros devices devices'; simpl;
    [reflexivity|].
  destruct e as [|data addr urlopen| | |]; try reflexivity; [|apply IH].
  destruct (DlnapDevice_init dd data addr urlopen) as [d| |]; try reflexivity.
  destruct (device_in d devices), (device_in d devices'); simpl; apply IH.
Qed.

(** A response that decodes can be added to the events, or taken
    away, without changing that. *)
Lemma loop_outcome_response data addr urlopen text pre post :
  decode data = Some text ->
  forall devices,
    outcome (loop dd None devices (pre ++ Readable data addr urlopen :: post))
    = outcome (loop dd None devices (pre ++ post)).
Proof.
  intros Hdec. induction pre as [|e pre IH]; intros devices.
  - simpl. destruct (init_decoded data addr urlopen text Hdec) as [d [-> _]].
    destruct (device_in d devices); simpl;
      [reflexivity | apply loop_outcome_unfiltered].
  - simpl. destruct e as [|da ad u| | |]; try reflexivity; [|apply IH].
    destruct (DlnapDevice_init dd da ad u) as [d| |]; try reflexivity.
    destruct (device_in d devices); simpl; apply IH.
Qed.

Lemma discover_loop wanted st mx fate events devs ops :
  discover dd wanted st mx fate events = (Ok devs, ops) ->
  loop dd wanted [] events = Ok devs.
Proof.
  unfold discover, with_.
  destruct (before_yield _) as [[sock| |] ops0]; try discriminate.
  destruct (loop dd wanted [] events); try discriminate.
  intros H. injection H as -> _. reflexivity.
Qed.

End Discovery.

(** ** The probe socket *)

Lemma send_udp_entered fate to payload sock ops0 :
  before_yield (_send_udp fate to payload) = (Ok sock, ops0) ->
  sock = Sock UDP /\ exists b, ops0 = [OpSocket UDP; OpSendto b to].
Proof.
  unfold _send_udp; simpl.
  destruct fate; try discriminate;
    destruct (encode payload) as [b|]; try discriminate;
    intros H; inversion H; subst; split; try reflexivity; exists b; reflexivity.
Qed.

Lemma send_udp_not_entered fate to payload e ops0 :
  before_yield (_send_udp fate to payload) = (Raise e, ops0) ->
  ~ In (OpClose UDP) ops0.
Proof.
  unfold _send_udp; simpl.
  destruct fate; try discriminate;
    try (destruct (encode payload) as [b|]; try discriminate);
    intros H; inversion H; subst; simpl; intuition discriminate.
Qed.

(** The call once its probe has gone out. *)
Lemma discover_entered dd wanted st mx events b :
  encode (msearch st mx) = Some b ->
  discover dd wanted st mx UdpFine events =
  match loop dd wanted [] events with
  | Ok devs => (Ok devs, [OpSocket UDP; OpSendto b SSDP_GROUP; OpClose UDP])
  | Raise e => (Raise e, [OpSocket UDP; OpSendto b SSDP_GROUP])
  | Running => (Running, [OpSocket UDP; OpSendto b SSDP_GROUP])
  end.
Proof.
  intros H. unfold discover, with_, _send_udp.
  cbn [before_yield after_yield]. rewrite H.
  destruct (loop dd wanted [] events); reflexivity.
Qed.

(** X23. A call that returns has closed its socket, as the last thing it
    did. *)
Lemma discover_returns_closed dd wanted st mx fate events devs ops :
  discover dd wanted st mx fate events = (Ok devs, ops) ->
  exists ops', ops = ops' ++ [OpClose UDP].
Proof.
  unfold discover, with_.
  destruct (before_yield _) as [[sock| |] ops0] eqn:E; try discriminate.
  apply send_udp_entered in E. destruct E as [-> _].
  destruct (loop dd wanted [] events); try discriminate.
  intros H. inversion H; subst. exists ops0. reflexivity.
Qed.

(** A call that raises has not. *)
Lemma discover_raises_open dd wanted st mx fate events e ops :
  discover dd wanted st mx fate events = (Raise e, ops) ->
  ~ In (OpClose UDP) ops.
Proof.
  unfold discover, with_.
  destruct (before_yield _) as [[sock| |] ops0] eqn:E.
  - apply send_udp_entered in E. destruct E as [-> [b ->]].
    destruct (loop dd wanted [] events); try discriminate.
    intros H. inversion H; subst. simpl. intuition discriminate.
  - intros H. inversion H; subst. apply send_udp_not_entered in E. exact E.
  - discriminate.
Qed.

(** C2, at the failing input: the socket reports an error on the
    first turn. [discover] raises, and the calls made on the socket
    are its creation and the one [sendto]; no [close] follows. *)
Theorem discover_error_leaves_socket_open :
  exists b,
    discover ascii_decimal None (lit "ssdp:all") 3 UdpFine [Errored]
    = (Raise (Exception (lit "Getting response failed")),
       [OpSocket UDP; OpSendto b SSDP_GROUP])
    /\ ~ In (OpClose UDP) [OpSocket UDP; OpSendto b SSDP_GROUP].
Proof.
  eexists. split.
  - vm_compute. reflexivity.
  - simpl. intuition discriminate.
Qed.

(** ** Failed fetches *)

Lemma discover_empty_filter dd st mx fate events :
  discover dd (Some []) st mx fate events = discover dd None st mx fate events.
Proof.
  unfold discover, with_. rewrite loop_empty_filter. reflexivity.
Qed.


(** C1, the claim as written, at a concrete response: the fetch
    fails, the device is built, and its [control_url] is [None], not
    the empty string. *)
Lemma failed_fetch_control_url_unset :
  exists d,
    DlnapDevice_init ascii_decimal (octets sample_response) (lit "10.0.0.5")
                     unreachable = Ok d
    /\ has_av_transport d = false
    /\ control_url d = None
    /\ control_url d <> Some [].
Proof.
  eexists. split; [vm_compute; reflexivity|].
  simpl. repeat split. discriminate.
Qed.

(** A response that decodes does not decide whether an unfiltered
    call returns. *)
Lemma discover_with_response dd wanted st mx fate data addr urlopen text
      pre post devs0 ops :
  decode data = Some text ->
  wanted = None \/ wanted = Some [] ->
  discover dd wanted st mx fate (pre ++ post) = (Ok devs0, ops) ->
  exists devs,
    discover dd wanted st mx fate (pre ++ Readable data addr urlopen :: post)
    = (Ok devs, ops).
Proof.
  intros Hdec Hw.
  assert (E : forall events,
             discover dd wanted st mx fate events
             = discover dd None st mx fate events)
    by (destruct Hw as [-> | ->];
        [reflexivity | intros; apply discover_empty_filter]).
  rewrite !E. unfold discover, with_.
  destruct (before_yield _) as [[sock| |] ops0]; try discriminate.
  pose proof (loop_outcome_response dd data addr urlopen text pre post Hdec [])
    as O.
  destruct (loop dd None [] (pre ++ post)); try discriminate.
  destruct (loop dd None [] (pre ++ Readable data addr urlopen :: post))
    as [devs| |]; try discriminate.
  intros H. inversion H; subst. exists devs. reflexivity.
Qed.

(** C1, amended. A response that decodes and whose description
    cannot be fetched still gives a device, with [has_av_transport]
    false and [control_url] unset ([None]). When [discover] runs
    without a name filter, the response does not keep it from
    returning, and every list it returns after taking the response
    holds a device equal to that one. *)
Theorem failed_fetch_device_kept dd data addr urlopen text :
  decode data = Some text ->
  fetch_fails urlopen text ->
  exists d,
    DlnapDevice_init dd data addr urlopen = Ok d
    /\ has_av_transport d = false
    /\ control_url d = None
    /\ forall wanted st mx fate pre post,
        wanted = None \/ wanted = Some [] ->
        ~ In Timeout pre ->
        (forall devs0 ops,
            discover dd wanted st mx fate (pre ++ post) = (Ok devs0, ops) ->
            exists devs,
              discover dd wanted st mx fate
                       (pre ++ Readable data addr urlopen :: post)
              = (Ok devs, ops))
        /\ (forall devs ops,
               discover dd wanted st mx fate
                        (pre ++ Readable data addr urlopen :: post)
               = (Ok devs, ops) ->
               device_in d devs = true).
Proof.
  intros Hdec Hfail.
  destruct (init_failed dd data addr urlopen text Hdec Hfail)
    as [d [Hd [_ [_ [Hc Ha]]]]].
  exists d. repeat split; try assumption.
  - intros devs0 ops. apply (discover_with_response dd wanted st mx fate
                               data addr urlopen text pre post devs0 ops Hdec H).
  - intros devs ops E. apply discover_loop in E.
    destruct (loop_prefix dd wanted pre _ [] devs H0 E) as [devices [H' ND]];
      [constructor|].
    apply device_in_key.
    apply (loop_readable_in dd wanted data addr urlopen d post devices devs H' Hd);
      [|exact ND].
    destruct H as [-> | ->]; reflexivity.
Qed.

Lemma failed_fetch_device_kept_witness :
  exists d,
    DlnapDevice_init ascii_decimal (octets sample_response) (lit "10.0.0.5")
                     unreachable = Ok d
    /\ has_av_transport d = false
    /\ control_url d = None
    /\ exists devs ops,
        discover ascii_decimal None (lit "ssdp:all") 3 UdpFine
                 ([Idle] ++ Readable (octets sample_response) (lit "10.0.0.5")
                                     unreachable :: [Timeout])
        = (Ok devs, ops)
        /\ device_in d devs = true.
Proof.
  destruct (failed_fetch_device_kept ascii_decimal (octets sample_response)
              (lit "10.0.0.5") unreachable sample_response)
    as [d [Hd [Ha [Hc K]]]].
  - vm_compute. reflexivity.
  - reflexivity.
  - exists d. repeat (split; [assumption|]).
    destruct (K None (lit "ssdp:all") 3%Z UdpFine [Idle] [Timeout]) as [K1 K2].
    + left. reflexivity.
    + simpl. intuition discriminate.
    + destruct (K1 [] (snd (discover ascii_decimal None (lit "ssdp:all") 3
                                      UdpFine ([Idle] ++ [Timeout]))))
        as [devs E].
      * vm_compute. reflexivity.
      * eexists devs, _. split; [exact E|]. apply (K2 devs _ E).
Defined.

(** C10. With a name filter that is not empty, a response whose
    description cannot be fetched makes [discover] raise [TypeError]:
    the device has no name when the substring test is reached. The
    responses taken before it are any that decode; the probe itself
    went out. *)
Theorem filter_raises_on_failed_fetch dd c f st mx pre data addr urlopen text post :
  encode st <> None ->
  forallb passes pre = true ->
  decode data = Some text ->
  fetch_fails urlopen text ->
  fst (discover dd (Some (c :: f)) st mx UdpFine
                (pre ++ Readable data addr urlopen :: post))
  = Raise TypeError.
Proof.
  intros Hst Hpre Hdec Hfail.
  pose proof (encode_msearch st mx Hst) as He.
  destruct (encode (msearch st mx)) as [b|] eqn:E; [|congruence].
  rewrite (discover_entered dd _ st mx _ b E).
  rewrite (loop_unnamed dd c f pre data addr urlopen text post Hpre Hdec Hfail []);
    [reflexivity | constructor].
Qed.

Lemma filter_raises_on_failed_fetch_witness :
  fst (discover ascii_decimal (Some (lit "TV")) (lit "ssdp:all") 3 UdpFine
                ([Idle] ++ Readable (octets sample_response) (lit "10.0.0.5")
                                    unreachable :: [Timeout]))
  = Raise TypeError.
Proof.
  apply (filter_raises_on_failed_fetch ascii_decimal 84%N (lit "V")
           (lit "ssdp:all") 3 [Idle] (octets sample_response) (lit "10.0.0.5")
           unreachable sample_response [Timeout]).
  - vm_compute. discriminate.
  - reflexivity.
  - vm_compute. reflexivity.
  - reflexivity.
Defined.

(** C5, at the failing input: one response, from a device whose
    description cannot be fetched, and the filter [TV]. Without a
    filter the call returns one device, and it has no name, so the
    filter matches no device; with the filter the call raises
    [TypeError] where an empty list is due. *)
Theorem filter_matching_nothing_raises :
  (exists d,
      fst (discover ascii_decimal None (lit "ssdp:all") 3 UdpFine lone_unreachable)
      = Ok [d] /\ name d = None)
  /\ fst (discover ascii_decimal (Some (lit "TV")) (lit "ssdp:all") 3 UdpFine
                   lone_unreachable)
     = Raise TypeError.
Proof.
  split.
  - eexists. split; [vm_compute; reflexivity | reflexivity].
  - vm_compute. reflexivity.
Qed.

(** X24. When every device found has a name, the filter does what C5
    says: the call returns the devices of the unfiltered discovery
    whose name contains the filter, an empty list when none does. *)
Lemma discover_filter dd c f st mx fate events all ops :
  discover dd None st mx fate events = (Ok all, ops) ->
  Forall (fun d => name d <> None) all ->
  discover dd (Some (c :: f)) st mx fate events
  = (Ok (filter (name_has (c :: f)) all), ops).
Proof.
  unfold discover, with_.
  destruct (before_yield _) as [[sock| |] ops0]; try discriminate.
  destruct (loop dd None [] events) as [out| |] eqn:E; try discriminate.
  intros H Hall. injection H as -> <-.
  pose proof (loop_filter dd c f events [] all E Hall) as L.
  simpl in L. rewrite L; [reflexivity | constructor].
Qed.

(** ** Identity and deduplication *)

(** C3, the claim as written, under a filter: the same response
    comes twice, from a device named [Living Room TV], and the filter
    is [Kitchen]. The list returned is empty; it holds no device for
    the two responses, not one. *)
Lemma filtered_out_responses_leave_no_device :
  exists d,
    DlnapDevice_init ascii_decimal (octets sample_response) (lit "10.0.0.5")
                     (serves sample_description) = Ok d
    /\ name d = Some (lit "Living Room TV")
    /\ fst (discover ascii_decimal (Some (lit "Kitchen")) (lit "ssdp:all") 3
                     UdpFine [sample_readable; sample_readable; Timeout])
       = Ok []
    /\ count d [] <> 1.
Proof.
  eexists. split; [vm_compute; reflexivity|].
  split; [reflexivity|]. split; [vm_compute; reflexivity|].
  vm_compute. discriminate.
Qed.

(** C3, amended. Two devices are equal exactly when their names and
    their addresses are; ports, control URLs and the other fields
    play no part. A list that [discover] returns never holds two
    equal devices. When two responses taken before the deadline give
    devices with the same name and address, the list holds exactly
    one device equal to them if the name filter keeps that name, as
    it always does when no filter is given, and none if the filter
    rejects it. *)
Theorem device_identity_and_dedup dd :
  (forall a d, DlnapDevice_eq a d = true <-> name a = name d /\ ip a = ip d)
  /\ forall wanted st mx fate e1 e2 e3 data1 addr1 u1 data2 addr2 u2 d1 d2 devs ops,
      discover dd wanted st mx fate
               (e1 ++ Readable data1 addr1 u1 :: e2 ++ Readable data2 addr2 u2 :: e3)
      = (Ok devs, ops) ->
      ~ In Timeout e1 ->
      ~ In Timeout e2 ->
      DlnapDevice_init dd data1 addr1 u1 = Ok d1 ->
      DlnapDevice_init dd data2 addr2 u2 = Ok d2 ->
      name d1 = name d2 ->
      ip d1 = ip d2 ->
      (forall d, count d devs <= 1)
      /\ (keeps wanted d1 = Ok true -> count d1 devs = 1 /\ count d2 devs = 1)
      /\ (wanted = None \/ wanted = Some [] ->
          count d1 devs = 1 /\ count d2 devs = 1)
      /\ (keeps wanted d1 = Ok false -> count d1 devs = 0 /\ count d2 devs = 0).
Proof.
  split.
  - intros a d. rewrite DlnapDevice_eq_key. unfold key.
    split; [intros H; injection H; auto | intros [-> ->]; reflexivity].
  - intros wanted st mx fate e1 e2 e3 data1 addr1 u1 data2 addr2 u2 d1 d2 devs ops
           H NT1 NT2 H1 H2 Hn Hi.
    apply discover_loop in H.
    assert (ND : NoDup (map key devs)).
    { apply (loop_extends dd wanted _ [] devs H). constructor. }
    assert (Hkey : key d2 = key d1) by (unfold key; congruence).
    assert (Hcount : count d2 devs = count d1 devs).
    { unfold count. f_equal. apply filter_ext. intros x.
      destruct (DlnapDevice_eq x d1) eqn:E1, (DlnapDevice_eq x d2) eqn:E2;
        try reflexivity.
      - apply DlnapDevice_eq_key in E1.
        assert (X : DlnapDevice_eq x d2 = true)
          by (apply DlnapDevice_eq_key; congruence).
        congruence.
      - apply DlnapDevice_eq_key in E2.
        assert (X : DlnapDevice_eq x d1 = true)
          by (apply DlnapDevice_eq_key; congruence).
        congruence. }
    assert (Kept : keeps wanted d1 = Ok true -> count d1 devs = 1).
    { intros Hk.
      destruct (loop_prefix dd wanted e1 _ [] devs NT1 H) as [devices [H' ND']];
        [constructor|].
      pose proof (loop_readable_in dd wanted data1 addr1 u1 d1 _ devices devs
                    H' H1 Hk ND') as Hin.
      pose proof (count_le_1 d1 devs ND). pose proof (count_present d1 devs Hin).
      lia. }
    split; [intros d; apply count_le_1, ND|].
    split; [intros Hk; rewrite Hcount; auto|].
    split.
    { intros [-> | ->]; rewrite Hcount; split; apply Kept; reflexivity. }
    intros Hk. rewrite Hcount.
    assert (count d1 devs = 0); [|auto].
    apply count_absent. intros Hin. apply in_map_iff in Hin.
    destruct Hin as [x [Hx Hin]].
    pose proof (loop_kept dd wanted _ [] devs H (Forall_nil _)) as K.
    rewrite Forall_forall in K. specialize (K x Hin).
    assert (E : DlnapDevice_eq x d1 = true) by (apply DlnapDevice_eq_key; exact Hx).
    rewrite (keeps_eq wanted x d1 E) in K. congruence.
Qed.

Lemma device_identity_and_dedup_witness :
  exists d devs,
    fst (discover ascii_decimal None (lit "ssdp:all") 3 UdpFine
                  ([Idle] ++ sample_readable :: [Idle] ++ sample_readable
                          :: [Timeout])) = Ok devs
    /\ DlnapDevice_init ascii_decimal (octets sample_response) (lit "10.0.0.5")
                        (serves sample_description) = Ok d
    /\ (forall x, count x devs <= 1)
    /\ count d devs = 1.
Proof.
  destruct (discover ascii_decimal None (lit "ssdp:all") 3 UdpFine
                     ([Idle] ++ sample_readable :: [Idle] ++ sample_readable
                             :: [Timeout]))
    as [[devs| |] ops] eqn:E; try (vm_compute in E; discriminate).
  destruct (DlnapDevice_init ascii_decimal (octets sample_response)
                             (lit "10.0.0.5") (serves sample_description))
    as [d| |] eqn:Ed; try (vm_compute in Ed; discriminate).
  exists d, devs. split; [reflexivity|]. split; [reflexivity|].
  destruct (proj2 (device_identity_and_dedup ascii_decimal)
              None (lit "ssdp:all") 3%Z UdpFine [Idle] [Idle] [Timeout]
              (octets sample_response) (lit "10.0.0.5") (serves sample_description)
              (octets sample_response) (lit "10.0.0.5") (serves sample_description)
              d d devs ops E) as [A [B _]].
  - simpl. intuition discriminate.
  - simpl. intuition discriminate.
  - exact Ed.
  - exact Ed.
  - reflexivity.
  - reflexivity.
  - split; [exact A|]. apply B. reflexivity.
Defined.

(** * Further properties *)

(** ** Greedy matching *)

Lemma startswith_nil_r (s : str) : startswith s [] = true.
Proof. destruct s; reflexivity. Qed.

Lemma startswith_length (s p : str) :
  startswith s p = true -> len p <= len s.
Proof.
  intros H. apply startswith_app in H. destruct H as [t ->].
  unfold len. rewrite length_app. lia.
Qed.

(** A greedy star that finds no way through: the rest of the pattern
    fails after every run of characters of the class. *)
Lemma star_greedy_none (A : Type) (p : char -> bool) (k : str -> option A) :
  forall s,
    (forall a b, s = a ++ b -> forallb p a = true -> k b = None) ->
    star_greedy p k s = None.
Proof.
  induction s as [|c s IH]; intros H; simpl.
  - apply (H [] []); reflexivity.
  - assert (K : k (c :: s) = None) by (apply (H [] (c :: s)); reflexivity).
    destruct (p c) eqn:Pc; [|exact K].
    rewrite IH; [exact K|].
    intros a b -> Ha. apply (H (c :: a) b); [reflexivity|].
    simpl. rewrite Pc. exact Ha.
Qed.

(** A greedy star settles on the longest run after which the rest of
    the pattern goes through. *)
Lemma star_greedy_longest (A : Type) (p : char -> bool) (k : str -> option A)
      (r : A) :
  forall a b,
    forallb p a = true ->
    k b = Some r ->
    (forall a' b', a ++ b = a' ++ b' -> forallb p a' = true ->
                   len a < len a' -> k b' = None) ->
    star_greedy p k (a ++ b) = Some r.
Proof.
  induction a as [|c a IH]; intros b Pa Kb Hlong.
  - simpl. destruct b as [|c b]; [exact Kb|]. simpl.
    destruct (p c) eqn:Pc; [|exact Kb].
    rewrite star_greedy_none; [exact Kb|].
    intros a' b' E Ha'. apply (Hlong (c :: a') b').
    + simpl. rewrite E. reflexivity.
    + simpl. rewrite Pc. exact Ha'.
    + unfold len. simpl. lia.
  - simpl in Pa. apply andb_true_iff in Pa. destruct Pa as [Pc Pa].
    simpl. rewrite Pc. rewrite (IH b Pa Kb); [reflexivity|].
    intros a' b' E Ha' L. apply (Hlong (c :: a') b').
    + simpl. rewrite E. reflexivity.
    + simpl. rewrite Pc. exact Ha'.
    + unfold len in *. simpl. lia.
Qed.

(** A star at the end of a pattern always goes through and leaves
    the groups as they are. *)
Lemma star_greedy_last (p : char -> bool) (gs : list str) :
  forall s, exists rest,
    star_greedy p (fun s' => Some (gs, s')) s = Some (gs, rest).
Proof.
  induction s as [|c s [rest IH]]; simpl.
  - exists []. reflexivity.
  - destruct (p c); [|exists (c :: s); reflexivity].
    rewrite IH. exists rest. reflexivity.
Qed.

(** The first match that [findall] reports is the leftmost one. *)
Lemma findall_leftmost (r : regex) (m : str) (gs : list str) (rest : str) :
  match_here r m = Some (gs, rest) ->
  forall pre fuel,
    (forall i, i < len pre -> match_here r (skipn i (pre ++ m)) = None) ->
    len pre < fuel ->
    exists more, findall_from fuel r (pre ++ m) = hd [] gs :: more.
Proof.
  intros Hm. induction pre as [|c pre IH]; intros fuel Hpre Hf.
  - destruct fuel as [|fuel]; [unfold len in Hf; simpl in Hf; lia|].
    simpl. rewrite Hm. eexists. reflexivity.
  - destruct fuel as [|fuel]; [unfold len in Hf; simpl in Hf; lia|].
    simpl. pose proof (Hpre 0) as H0. simpl in H0.
    rewrite H0 by (unfold len; simpl; lia).
    apply IH.
    + intros i Hi. apply (Hpre (S i)). unfold len in *. simpl. lia.
    + unfold len in *. simpl in Hf. lia.
Qed.

(** ** Occurrences *)

Lemma startswith_split (a b l : str) :
  startswith (a ++ b) l = true ->
  startswith a l = true
  \/ exists l2, l = a ++ l2 /\ l2 <> [] /\ startswith b l2 = true.
Proof.
  revert l. induction a as [|x a IH]; intros l H.
  - destruct l as [|y l]; [left; reflexivity|].
    right. exists (y :: l). repeat split; [discriminate | exact H].
  - destruct l as [|y l]; [left; reflexivity|].
    simpl in H. apply andb_true_iff in H. destruct H as [Hxy H].
    apply N.eqb_eq in Hxy. subst y.
    destruct (IH l H) as [Ha | [l2 [-> [Hn Hb]]]].
    + left. simpl. rewrite N.eqb_refl. exact Ha.
    + right. exists l2. repeat split; assumption.
Qed.

Lemma unbordered_spec (l : str) :
  unbordered l = true ->
  forall a l2, l = a ++ l2 -> a <> [] -> l2 <> [] -> startswith l l2 = false.
Proof.
  unfold unbordered. rewrite forallb_forall. intros H a l2 E Ha Hl2.
  destruct a as [|x a]; [congruence|].
  specialize (H (List.length a)).
  assert (Hin : In (List.length a) (seq 0 (len l - 1))).
  { apply in_seq. subst l. unfold len. rewrite length_app. simpl.
    destruct l2; [congruence|]. simpl. lia. }
  specialize (H Hin). apply negb_true_iff in H.
  assert (S : skipn (S (List.length a)) l = l2).
  { subst l. change (S (List.length a)) with (List.length (x :: a)).
    rewrite skipn_app, skipn_all, Nat.sub_diag. reflexivity. }
  rewrite S in H. exact H.
Qed.

Lemma str_in_cons_false (l : str) (c : char) (s : str) :
  str_in l (c :: s) = false ->
  startswith (c :: s) l = false /\ str_in l s = false.
Proof. simpl. intros H. apply orb_false_iff in H. exact H. Qed.

Lemma startswith_short (s l l2 : str) :
  startswith (l ++ s) l2 = true -> len l2 <= len l -> startswith l l2 = true.
Proof.
  revert l. induction l2 as [|y l2 IH]; intros l H L; [reflexivity|].
  destruct l as [|x l]; [unfold len in L; simpl in L; lia|].
  simpl in *. apply andb_true_iff in H. destruct H as [-> H]. simpl.
  apply IH; [exact H | unfold len in *; simpl in L; lia].
Qed.

(** Before the first place where an unbordered [l] has been put, [l]
    does not occur, if it did not occur in the text before. *)
Lemma no_early_occurrence (l pre x : str) :
  unbordered l = true ->
  str_in l pre = false ->
  forall i, i < len pre -> startswith (skipn i (pre ++ l ++ x)) l = false.
Proof.
  intros U. induction pre as [|c pre IH]; intros H i Hi.
  - unfold len in Hi. simpl in Hi. lia.
  - apply str_in_cons_false in H. destruct H as [H0 H].
    destruct i as [|i].
    + simpl skipn. destruct (startswith ((c :: pre) ++ l ++ x) l) eqn:E;
        [exfalso|exact E].
      apply startswith_split in E. destruct E as [E | [l2 [E [Hn Hb]]]];
        [congruence|].
      assert (L : len l2 <= len l).
      { rewrite E. unfold len. rewrite length_app. lia. }
      pose proof (startswith_short _ _ _ Hb L) as P.
      rewrite (unbordered_spec l U (c :: pre) l2 E) in P;
        [discriminate | discriminate | exact Hn].
    + simpl. apply IH; [exact H | unfold len in *; simpl in Hi; lia].
Qed.

(** After the place where an unbordered [l] stands, the next
    occurrence of [l], if any, lies wholly in the text that
    follows. *)
Lemma later_occurrence (l x a b : str) :
  unbordered l = true ->
  l ++ x = a ++ b ->
  a <> [] ->
  startswith b l = true ->
  exists a', a = l ++ a' /\ x = a' ++ b.
Proof.
  intros U E Ha Hb.
  destruct (Nat.le_gt_cases (len l) (len a)) as [L|L].
  - (* the occurrence starts at or after the end of [l] *)
    assert (P : startswith a l = true).
    { apply (startswith_short b). rewrite <- E. apply startswith_app.
      exists x. reflexivity. exact L. }
    apply startswith_app in P. destruct P as [a' ->].
    exists a'. split; [reflexivity|].
    rewrite <- app_assoc in E. apply app_inv_head in E. exact E.
  - (* it would start inside [l] *)
    exfalso.
    assert (P : startswith l a = true).
    { apply (startswith_short x). rewrite E. apply startswith_app.
      exists b. reflexivity. unfold len in *. lia. }
    apply startswith_app in P. destruct P as [l2 El].
    assert (Hl2 : l2 <> []).
    { intros ->. rewrite app_nil_r in El. subst a. unfold len in L. lia. }
    rewrite El in E. rewrite <- app_assoc in E. apply app_inv_head in E.
    (* b = l2 ++ x starts with l, and l2 is shorter than l *)
    assert (Q : startswith (l2 ++ x) l = true) by (rewrite E; exact Hb).
    assert (R : startswith l l2 = true).
    { apply startswith_app in Q. destruct Q as [t Q].
      apply startswith_app.
      (* l2 ++ x = l ++ t, |l2| <= |l| *)
      assert (len l2 <= len l)
        by (rewrite El; unfold len; rewrite length_app; lia).
      clear - Q H. revert l Q H. induction l2 as [|y l2 IH]; intros l Q H.
      - exists l. reflexivity.
      - destruct l as [|z l]; [unfold len in H; simpl in H; lia|].
        simpl in Q. injection Q as -> Q.
        destruct (IH l Q) as [u ->]; [unfold len in *; simpl in H; lia|].
        exists u. reflexivity. }
    rewrite (unbordered_spec l U a l2 El Ha Hl2) in R. discriminate.
Qed.

(** ** What the extractors find *)

Lemma rmatch_lit_app (l x : str) (k : cont) (gs : list str) :
  rmatch (Lit l) k (l ++ x) gs = k x gs.
Proof.
  simpl. assert (E : strip_prefix l (l ++ x) = Some x)
    by (apply strip_prefix_app; reflexivity).
  rewrite E. reflexivity.
Qed.

Lemma rmatch_seq (a b : regex) (k : cont) (s : str) (gs : list str) :
  rmatch (Seq a b) k s gs = rmatch a (rmatch b k) s gs.
Proof. reflexivity. Qed.

Lemma rmatch_star (p : char -> bool) (k : cont) (s : str) (gs : list str) :
  rmatch (Star p) k s gs = star_greedy p (fun s' => k s' gs) s.
Proof. reflexivity. Qed.

Lemma rmatch_lit (l : str) (k : cont) (s : str) (gs : list str) :
  rmatch (Lit l) k s gs
  = match strip_prefix l s with
    | Some s' => k s' gs
    | None => None
    end.
Proof. reflexivity. Qed.

Lemma match_here_lit_none (l : str) (r : regex) (s : str) :
  startswith s l = false -> match_here (Seq (Lit l) r) s = None.
Proof.
  intros H. unfold match_here. simpl. rewrite (strip_prefix_none _ _ H).
  reflexivity.
Qed.

Lemma firstn_len_app (a b : str) :
  firstn (len (a ++ b) - len b) (a ++ b) = a.
Proof.
  unfold len. rewrite length_app.
  replace (List.length a + List.length b - List.length b) with (List.length a + 0)
    by lia.
  rewrite firstn_app_2. simpl. apply app_nil_r.
Qed.

Lemma app_longer_split (a b a' b' : str) :
  a ++ b = a' ++ b' -> len a < len a' ->
  exists a2, a' = a ++ a2 /\ b = a2 ++ b' /\ a2 <> [].
Proof.
  revert a'. induction a as [|x a IH]; intros a' E L.
  - exists a'. simpl in *. repeat split; [exact E|].
    intros ->. unfold len in L. simpl in L. lia.
  - destruct a' as [|y a']; [unfold len in L; simpl in L; lia|].
    simpl in E. injection E as -> E.
    destruct (IH a' E) as [a2 [-> [-> Hn]]]; [unfold len in *; simpl in L; lia|].
    exists a2. auto.
Qed.

Lemma first_line_app (a b : str) :
  forallb dot a = true -> first_line (a ++ b) = a ++ first_line b.
Proof.
  induction a as [|c a IH]; simpl; intros H; [reflexivity|].
  apply andb_true_iff in H. destruct H as [-> H]. rewrite (IH H). reflexivity.
Qed.

(** A group holding any run, closed by the unbordered literal [e]:
    it holds the text up to the last [e] of the line, when the rest
    of the pattern goes through from there. *)
Lemma group_to_last (e n tail : str) (k : cont) (gs : list str)
      (r : list str * str) :
  unbordered e = true ->
  forallb dot e = true ->
  forallb dot n = true ->
  str_in e (first_line tail) = false ->
  k tail (gs ++ [n]) = Some r ->
  rmatch (Seq (Group (Star dot)) (Lit e)) k (n ++ e ++ tail) gs = Some r.
Proof.
  intros U De Dn Hlast Hk. cbn [rmatch].
  apply star_greedy_longest.
  - exact Dn.
  - rewrite firstn_len_app.
    assert (E : strip_prefix e (e ++ tail) = Some tail)
      by (apply strip_prefix_app; reflexivity).
    rewrite E. exact Hk.
  - intros a' b' E Da' L.
    destruct (app_longer_split _ _ _ _ E L) as [a2 [-> [E2 Hn]]].
    destruct (strip_prefix e b') as [t|] eqn:S; [exfalso|reflexivity].
    pose proof (strip_prefix_startswith _ _ _ S) as Sb.
    destruct (later_occurrence e tail a2 b' U E2 Hn Sb) as [a3 [-> ->]].
    apply strip_prefix_app in S. subst b'.
    rewrite !forallb_app in Da'.
    apply andb_true_iff in Da'. destruct Da' as [_ Da'].
    apply andb_true_iff in Da'. destruct Da' as [_ Da3].
    rewrite app_assoc, first_line_app in Hlast
      by (rewrite forallb_app, Da3, De; reflexivity).
    rewrite <- app_assoc in Hlast.
    rewrite str_in_app in Hlast. discriminate.
Qed.

(** X4. [_get_friendly_name] returns the text between the first start
    tag and the last end tag that stands on the same line. *)
Theorem friendly_name_found (pre n tail : str) :
  str_in NAME_START pre = false ->
  forallb dot n = true ->
  str_in NAME_END (first_line tail) = false ->
  _get_friendly_name (pre ++ NAME_START ++ n ++ NAME_END ++ tail) = n.
Proof.
  intros Hpre Dn Hlast. unfold _get_friendly_name, findall.
  assert (M : match_here re_friendly_name (NAME_START ++ n ++ NAME_END ++ tail)
              = Some ([n], tail)).
  { unfold match_here, re_friendly_name.
    change (rmatch (Seq (Lit (lit "<friendlyName>")) ?r) ?k ?s ?g)
      with (rmatch (Lit NAME_START) (rmatch r k) s g).
    rewrite rmatch_lit_app.
    apply (group_to_last NAME_END n tail _ [] ([n], tail));
      try reflexivity; assumption. }
  destruct (findall_leftmost _ _ _ _ M pre
              (S (len (pre ++ NAME_START ++ n ++ NAME_END ++ tail))))
    as [more E].
  - intros i Hi. apply match_here_lit_none.
    apply (no_early_occurrence NAME_START pre _ eq_refl Hpre i Hi).
  - unfold len. rewrite length_app. lia.
  - rewrite E. reflexivity.
Qed.

Lemma friendly_name_found_witness :
  _get_friendly_name
    (lit "<root>" ++ NAME_START ++ lit "Living Room TV" ++ NAME_END
         ++ lit "</root>")
  = lit "Living Room TV".
Proof.
  apply (friendly_name_found (lit "<root>") (lit "Living Room TV")
           (lit "</root>")); reflexivity.
Defined.

Lemma flatten_filter (s : str) : replace [LF] [] s = filter dot s.
Proof.
  unfold replace. induction s as [|c s IH]; [reflexivity|].
  cbn [replace_from filter]. unfold dot at 1.
  change (startswith (c :: s) [LF]) with (N.eqb LF c && true).
  rewrite andb_true_r, (N.eqb_sym LF c).
  destruct (N.eqb c LF); simpl; rewrite <- IH; reflexivity.
Qed.

(** Flattening leaves no line feed. *)
Lemma flatten_dot (s : str) : forallb dot (replace [LF] [] s) = true.
Proof.
  rewrite flatten_filter. apply forallb_forall. intros c H.
  apply filter_In in H. tauto.
Qed.

Lemma first_line_all (s : str) : forallb dot s = true -> first_line s = s.
Proof.
  intros H. rewrite <- (app_nil_r s) at 1. rewrite first_line_app by exact H.
  simpl. apply app_nil_r.
Qed.

(** X6. [_get_control_url] returns the text of the [controlURL] element
    that follows the AVTransport service type, when no other
    [controlURL] element comes after it in the description. The
    element may stand on a later line than the service type. *)
Theorem control_url_found (raw pre mid u post : str) :
  replace [LF] [] raw
  = pre ++ SERVICE_AVT ++ mid ++ URL_START ++ u ++ URL_END ++ post ->
  str_in SERVICE_AVT pre = false ->
  str_in URL_START (u ++ URL_END ++ post) = false ->
  str_in URL_END post = false ->
  _get_control_url raw = u.
Proof.
  intros Hflat Hpre Hstart Hend.
  pose proof (flatten_dot raw) as D. rewrite Hflat in D.
  rewrite !forallb_app in D.
  apply andb_true_iff in D. destruct D as [_ D].
  apply andb_true_iff in D. destruct D as [_ D].
  apply andb_true_iff in D. destruct D as [Dmid D].
  apply andb_true_iff in D. destruct D as [_ D].
  apply andb_true_iff in D. destruct D as [Du D].
  apply andb_true_iff in D. destruct D as [_ Dpost].
  unfold _get_control_url, findall. rewrite Hflat.
  assert (M : match_here re_control_url
                (SERVICE_AVT ++ mid ++ URL_START ++ u ++ URL_END ++ post)
              = Some ([u], post)).
  { unfold match_here, re_control_url.
    change (lit "<serviceType>" ++ URN_AVTransport ++ lit "</serviceType>")
      with SERVICE_AVT.
    change (lit "<controlURL>") with URL_START.
    change (lit "</controlURL>") with URL_END.
    rewrite rmatch_seq, rmatch_lit_app, rmatch_seq, rmatch_star.
    apply star_greedy_longest.
    - exact Dmid.
    - rewrite rmatch_seq, rmatch_lit_app.
      apply (group_to_last URL_END u post _ [] ([u], post));
        try reflexivity; try assumption.
      rewrite first_line_all by exact Dpost. exact Hend.
    - intros a' b' E Da' L.
      destruct (app_longer_split _ _ _ _ E L) as [a2 [-> [E2 Hn]]].
      rewrite rmatch_seq. cbn [rmatch].
      destruct (strip_prefix URL_START b') as [t|] eqn:S;
        [exfalso|reflexivity].
      pose proof (strip_prefix_startswith _ _ _ S) as Sb.
      destruct (later_occurrence URL_START _ a2 b' eq_refl E2 Hn Sb)
        as [a3 [-> E3]].
      apply strip_prefix_app in S. subst b'.
      rewrite E3, str_in_app in Hstart. discriminate. }
  destruct (findall_leftmost _ _ _ _ M pre
              (S (len (pre ++ SERVICE_AVT ++ mid ++ URL_START ++ u ++ URL_END
                           ++ post))))
    as [more E].
  - intros i Hi. apply match_here_lit_none.
    apply (no_early_occurrence SERVICE_AVT pre _ eq_refl Hpre i Hi).
  - unfold len. rewrite length_app. lia.
  - rewrite E. reflexivity.
Qed.

Lemma control_url_found_witness :
  _get_control_url sample_description = lit "/ctrl".
Proof.
  apply (control_url_found sample_description
           (lit "<root><friendlyName>Living Room TV</friendlyName><service>")
           [] (lit "/ctrl") (lit "</service></root>")); reflexivity.
Defined.

(** ** The port *)

Lemma findall_none (r : regex) (fuel : nat) :
  forall s,
    (forall i, match_here r (skipn i s) = None) ->
    findall_from fuel r s = [].
Proof.
  induction fuel as [|fuel IH]; intros s H; [reflexivity|].
  pose proof (H 0) as H0. simpl in H0. simpl. rewrite H0.
  destruct s as [|c s]; [reflexivity|].
  apply IH. intros i. apply (H (S i)).
Qed.

Lemma colon_digit_suffix (digit : char -> bool) (a b : str) :
  colon_digit digit (a ++ b) = false -> colon_digit digit b = false.
Proof.
  induction a as [|c a IH]; intros H; [exact H|].
  simpl in H. apply orb_false_iff in H. apply IH. tauto.
Qed.

Lemma colon_digit_skipn (digit : char -> bool) (i : nat) (s : str) :
  colon_digit digit s = false -> colon_digit digit (skipn i s) = false.
Proof.
  intros H. rewrite <- (firstn_skipn i s) in H.
  apply (colon_digit_suffix _ _ _ H).
Qed.

Section Port_properties.

Variable dd : char -> option N.

Let tail_of_port : regex :=
  Seq (Lit [COLON]) (Seq (Group (Plus (is_digit dd))) (Star dot)).

(** From a text where no colon stands before a digit, the part of
    the pattern that reads the port finds nothing. *)
Lemma no_port_here (k : cont) (gs : list str) (s : str) :
  colon_digit (is_digit dd) s = false ->
  rmatch tail_of_port k s gs = None.
Proof.
  intros H. unfold tail_of_port. rewrite rmatch_seq.
  destruct s as [|c s]; [reflexivity|].
  simpl in H. apply orb_false_iff in H. destruct H as [H _].
  cbn [rmatch strip_prefix]. unfold COLON in *. rewrite N.eqb_sym.
  destruct (N.eqb c 58); [|reflexivity]. simpl in H.
  destruct s as [|d s]; [reflexivity|].
  unfold Plus. cbn [rmatch]. rewrite H. reflexivity.
Qed.

(** X1. A location in which no colon stands right before a digit, or in
    which [http://] does not occur, has the port 80. *)
Theorem port_default (location : str) :
  colon_digit (is_digit dd) location = false
  \/ str_in HTTP location = false ->
  _get_port dd location = Ok 80%Z.
Proof.
  intros [H|H]; unfold _get_port, findall.
  - rewrite findall_none; [reflexivity|].
    intros i. pose proof (colon_digit_skipn _ i _ H) as Hi.
    unfold match_here, re_port. rewrite rmatch_seq, rmatch_lit.
    destruct (strip_prefix (lit "http://") (skipn i location)) as [x|] eqn:S;
      [|reflexivity].
    rewrite rmatch_seq, rmatch_star.
    apply star_greedy_none. intros a b E _.
    apply (no_port_here _ []).
    apply strip_prefix_app in S. rewrite S, E in Hi.
    apply (colon_digit_suffix _ (lit "http://" ++ a)).
    rewrite <- app_assoc. exact Hi.
  - unfold re_port. rewrite findall_absent by exact H. reflexivity.
Qed.

End Port_properties.

Lemma port_default_witness :
  _get_port ascii_decimal (lit "http://10.0.0.5/desc.xml") = Ok 80%Z
  /\ _get_port ascii_decimal (lit "https://10.0.0.5:8443/desc.xml") = Ok 80%Z.
Proof.
  split; apply port_default; [left | right]; reflexivity.
Defined.

Section Port_found.

Variable dd : char -> option N.

Lemma port_digits (pre host ds rest : str) :
  dd COLON = None ->
  str_in HTTP pre = false ->
  forallb dot host = true ->
  ds <> [] ->
  forallb (is_digit dd) ds = true ->
  no_digit_first (is_digit dd) rest = true ->
  colon_digit (is_digit dd) rest = false ->
  _get_port dd (pre ++ HTTP ++ host ++ [COLON] ++ ds ++ rest) = int_of dd ds.
Proof.
  intros Hc Hpre Dh Hne Dd Hnd Hcd.
  destruct ds as [|d0 ds]; [congruence|]. clear Hne.
  simpl in Dd. apply andb_true_iff in Dd. destruct Dd as [Dd0 Dds].
  destruct (star_greedy_last dot ([] ++ [d0 :: ds]) rest) as [rest' Hlast].
  assert (M : match_here (re_port dd)
                (HTTP ++ host ++ [COLON] ++ (d0 :: ds) ++ rest)
              = Some ([d0 :: ds], rest')).
  { unfold match_here, re_port. change (lit "http://") with HTTP.
    change (lit ":") with [COLON].
    rewrite rmatch_seq, rmatch_lit_app, rmatch_seq, rmatch_star.
    apply star_greedy_longest.
    - exact Dh.
    - rewrite rmatch_seq, rmatch_lit_app, rmatch_seq.
      unfold Plus. cbn [rmatch app]. rewrite Dd0.
      apply star_greedy_longest.
      + exact Dds.
      + change (d0 :: ds ++ rest) with ((d0 :: ds) ++ rest).
        rewrite firstn_len_app. exact Hlast.
      + intros a' b' E Da' L.
        destruct (app_longer_split _ _ _ _ E L) as [a2 [-> [-> Hn]]].
        exfalso. destruct a2 as [|c a2]; [congruence|].
        rewrite forallb_app in Da'. apply andb_true_iff in Da'.
        destruct Da' as [_ Da2]. simpl in Da2, Hnd.
        apply andb_true_iff in Da2. destruct Da2 as [Dc _].
        rewrite Dc in Hnd. discriminate.
    - intros a' b' E Da' L.
      destruct (app_longer_split _ _ _ _ E L) as [a2 [-> [E2 Hn]]].
      apply (no_port_here dd _ []).
      (* b' is a proper suffix of the colon, the digits and the rest *)
      destruct a2 as [|c a2]; [congruence|].
      simpl in E2. injection E2 as _ E2.
      clear - E2 Hc Dd0 Dds Hcd Hnd.
      assert (G : forall (x : str) u v,
                 forallb (is_digit dd) x = true ->
                 x ++ rest = u ++ v ->
                 colon_digit (is_digit dd) v = false).
      { induction x as [|y x IH]; intros u v Dx E.
        - simpl in E. rewrite E in Hcd. apply (colon_digit_suffix _ _ _ Hcd).
        - simpl in Dx. apply andb_true_iff in Dx. destruct Dx as [Dy Dx].
          destruct u as [|c u].
          + simpl in E. subst v. simpl.
            assert (Ny : N.eqb y COLON = false).
            { destruct (N.eqb_spec y COLON) as [->|]; [|reflexivity].
              unfold is_digit in Dy. rewrite Hc in Dy. discriminate. }
            rewrite Ny. simpl. apply (IH [] (x ++ rest) Dx eq_refl).
          + simpl in E. injection E as _ E. apply (IH u v Dx E). }
      apply (G (d0 :: ds) a2 b'); [simpl; rewrite Dd0; exact Dds | exact E2]. }
  unfold _get_port, findall.
  destruct (findall_leftmost _ _ _ _ M pre
              (S (len (pre ++ HTTP ++ host ++ [COLON] ++ (d0 :: ds) ++ rest))))
    as [more E].
  - intros i Hi. apply match_here_lit_none.
    apply (no_early_occurrence HTTP pre _ eq_refl Hpre i Hi).
  - unfold len. rewrite length_app. lia.
  - rewrite E. reflexivity.
Qed.

(** X2. [_get_port] reads the digits after the last colon that stands
    before a digit: in [http://host:digits...] those are the port,
    when no colon stands before a digit further on and the colon is
    no digit itself. *)
Theorem port_found (pre host ds rest : str) :
  dd COLON = None ->
  str_in HTTP pre = false ->
  forallb dot host = true ->
  ds <> [] ->
  forallb (is_digit dd) ds = true ->
  no_digit_first (is_digit dd) rest = true ->
  colon_digit (is_digit dd) rest = false ->
  _get_port dd (pre ++ HTTP ++ host ++ [COLON] ++ ds ++ rest) = int_of dd ds.
Proof. apply port_digits. Qed.

End Port_found.

Lemma port_found_witness :
  _get_port ascii_decimal
            ([] ++ HTTP ++ lit "10.0.0.5" ++ [COLON] ++ lit "8080"
                ++ lit "/desc.xml")
  = int_of ascii_decimal (lit "8080").
Proof.
  apply (port_found ascii_decimal [] (lit "10.0.0.5") (lit "8080")
           (lit "/desc.xml")); try reflexivity. discriminate.
Defined.

(** ** Ports written and read back *)

Ltac eval_digit :=
  match goal with
  | |- context [ascii_decimal ?c] =>
      let v := eval vm_compute in (ascii_decimal c) in
      change (ascii_decimal c) with v; cbv iota
  end.

Lemma int_of_uint_acc (u : Decimal.uint) :
  forall p : positive,
    fold_left
      (fun acc c =>
         match ascii_decimal c with
         | Some v => (10 * acc + Z.of_N v)%Z
         | None => acc
         end)
      (lit (NilEmpty.string_of_uint u)) (Z.pos p)
    = Z.pos (Pos.of_uint_acc u p).
Proof.
  induction u; intros p; cbn [NilEmpty.string_of_uint Pos.of_uint_acc];
    try reflexivity;
    change (lit (String ?a ?s)) with (N_of_ascii a :: lit s);
    cbn [fold_left]; rewrite <- IHu; f_equal; eval_digit; lia.
Qed.

Lemma int_of_uint (u : Decimal.uint) :
  decimal_value ascii_decimal (lit (NilEmpty.string_of_uint u))
  = Z.of_N (Pos.of_uint u).
Proof.
  unfold decimal_value.
  induction u; cbn [NilEmpty.string_of_uint Pos.of_uint];
    try reflexivity;
    change (lit (String ?a ?s)) with (N_of_ascii a :: lit s);
    cbn [fold_left]; eval_digit;
    try exact IHu; apply int_of_uint_acc.
Qed.

Lemma digits_uint (u : Decimal.uint) :
  forallb (is_digit ascii_decimal) (lit (NilEmpty.string_of_uint u)) = true.
Proof. induction u; simpl; auto. Qed.

(** A number that is not negative, written by [format], has itself
    for value; what [format] writes is a run of ASCII digits. *)
Lemma int_of_str_of_Z (z : Z) :
  (0 <= z)%Z ->
  decimal_value ascii_decimal (str_of_Z z) = z
  /\ forallb (is_digit ascii_decimal) (str_of_Z z) = true
  /\ str_of_Z z <> [].
Proof.
  intros Hz. unfold str_of_Z.
  pose proof (DecimalZ.of_to z) as R.
  destruct (Z.to_int z) as [d|d] eqn:E.
  - unfold NilZero.string_of_int, NilZero.string_of_uint.
    simpl in R. unfold Z.of_uint in R.
    destruct d; try (rewrite int_of_uint, R; split; [reflexivity|];
                     split; [apply digits_uint | discriminate]).
    subst z. repeat split. discriminate.
  - exfalso. destruct z; simpl in E; try discriminate. lia.
Qed.

(** Doubling a number adds at most one digit. *)
Lemma double_width (u : Decimal.uint) :
  Decimal.nb_digits (Decimal.Little.double u) <= S (Decimal.nb_digits u)
  /\ Decimal.nb_digits (Decimal.Little.succ_double u) <= S (Decimal.nb_digits u).
Proof. induction u; simpl; lia. Qed.

(** A number has no more decimal digits than binary ones. *)
Lemma decimal_width (p : positive) :
  Decimal.nb_digits (Pos.to_little_uint p) <= Pos.size_nat p.
Proof.
  induction p as [p IH|p IH|]; simpl.
  - pose proof (double_width (Pos.to_little_uint p)). lia.
  - pose proof (double_width (Pos.to_little_uint p)). lia.
  - lia.
Qed.

Lemma len_uint (u : Decimal.uint) :
  len (lit (NilEmpty.string_of_uint u)) = Decimal.nb_digits u.
Proof. unfold len. induction u; simpl; auto. Qed.

(** A port number is written with few digits. *)
Lemma port_width (p : Z) :
  valid_port p = true -> len (str_of_Z p) <= 17.
Proof.
  unfold valid_port. intros H. apply andb_true_iff in H.
  destruct H as [H0 H1]. apply Z.leb_le in H0, H1.
  destruct p as [|q|q]; [vm_compute; lia| |lia].
  unfold str_of_Z. cbn [Z.to_int NilZero.string_of_int].
  unfold Pos.to_uint, NilZero.string_of_uint.
  assert (W : Decimal.nb_digits (Decimal.rev (Pos.to_little_uint q)) <= 17).
  { rewrite DecimalFacts.nb_digits_rev.
    pose proof (decimal_width q).
    assert (L : (q < 65536)%positive) by lia.
    apply Pos.size_nat_monotone in L.
    change (Pos.size_nat 65536) with 17 in L. lia. }
  destruct (Decimal.rev (Pos.to_little_uint q)) eqn:E;
    try (rewrite len_uint; exact W).
  vm_compute. lia.
Qed.

Section Round_trip.

Variable dd : char -> option N.

(** The table reads the ASCII digits as they are written. *)
Hypothesis reads_ascii : forall c v, ascii_decimal c = Some v -> dd c = Some v.

Lemma ascii_digits (s : str) :
  forallb (is_digit ascii_decimal) s = true ->
  forallb (is_digit dd) s = true
  /\ decimal_value dd s = decimal_value ascii_decimal s.
Proof.
  unfold decimal_value. generalize 0%Z.
  induction s as [|c s IH]; intros acc H; [split; reflexivity|].
  simpl in H. apply andb_true_iff in H. destruct H as [Hc Hs].
  unfold is_digit in Hc. destruct (ascii_decimal c) as [v|] eqn:E;
    [|discriminate].
  cbn [forallb fold_left]. unfold is_digit at 1.
  rewrite E, (reads_ascii c v E). apply (IH _ Hs).
Qed.

(** X3. A port number written into a location by [format] is the port
    that [_get_port] reads back, with any digit table that reads the
    ASCII digits as they are written and does not take the colon for
    a digit; what follows the number must not go on with a digit of
    the table. *)
Theorem port_round_trip (host rest : str) (p : Z) :
  dd COLON = None ->
  valid_port p = true ->
  forallb dot host = true ->
  no_digit_first (is_digit dd) rest = true ->
  colon_digit (is_digit dd) rest = false ->
  _get_port dd (HTTP ++ host ++ [COLON] ++ str_of_Z p ++ rest) = Ok p.
Proof.
  intros Hc Hp Dh Hnd Hcd.
  assert (Hz : (0 <= p)%Z).
  { unfold valid_port in Hp. apply andb_true_iff in Hp.
    destruct Hp as [Hp _]. apply Z.leb_le, Hp. }
  destruct (int_of_str_of_Z p Hz) as [Hv [Hd Hn]].
  destruct (ascii_digits (str_of_Z p) Hd) as [Hd' Hv'].
  change (HTTP ++ host ++ [COLON] ++ str_of_Z p ++ rest)
    with ([] ++ HTTP ++ host ++ [COLON] ++ str_of_Z p ++ rest).
  rewrite (port_digits dd [] host (str_of_Z p) rest) by
    (try assumption; reflexivity).
  unfold int_of. pose proof (port_width p Hp) as W.
  destruct (Nat.ltb_spec max_str_digits (len (str_of_Z p))) as [L|L].
  - unfold max_str_digits in L. lia.
  - rewrite Hv', Hv. reflexivity.
Qed.

End Round_trip.

Lemma port_round_trip_witness :
  _get_port ascii_decimal
            (HTTP ++ lit "10.0.0.5" ++ [COLON] ++ str_of_Z 49152
                  ++ lit "/desc.xml")
  = Ok 49152%Z.
Proof.
  apply (port_round_trip ascii_decimal (fun c v H => H)
           (lit "10.0.0.5") (lit "/desc.xml") 49152);
    reflexivity.
Defined.

(** ** The location header *)

Lemma split_from_skip (sep a rest : str) :
  split_from sep (len a) (a ++ rest) = split_from sep 0 rest.
Proof.
  induction a as [|c a IH]; [reflexivity|]. exact IH.
Qed.

Lemma replace_from_skip (old new a rest : str) :
  replace_from old new (len a) (a ++ rest) = replace_from old new 0 rest.
Proof.
  induction a as [|c a IH]; [reflexivity|]. exact IH.
Qed.

Lemma split_from_line (sep l : str) :
  str_in sep l = false -> sep <> [] -> split_from sep 0 l = [l].
Proof.
  intros H Hs. induction l as [|c l IH]; [reflexivity|].
  apply str_in_cons_false in H. destruct H as [H0 H].
  cbn [split_from]. rewrite H0, (IH H). reflexivity.
Qed.

Lemma split_from_first (sep l rest : str) :
  unbordered sep = true ->
  sep <> [] ->
  str_in sep l = false ->
  split_from sep 0 (l ++ sep ++ rest) = l :: split_from sep 0 rest.
Proof.
  intros U Hs. induction l as [|c l IH]; intros H.
  - destruct sep as [|x sep]; [congruence|].
    cbn [app split_from].
    assert (E : startswith (x :: sep ++ rest) (x :: sep) = true)
      by (apply startswith_app; exists rest; reflexivity).
    rewrite E. f_equal.
    replace (len (x :: sep) - 1) with (len sep)
      by (unfold len; simpl; lia).
    apply split_from_skip.
  - pose proof (no_early_occurrence sep (c :: l) rest U H 0) as N.
    simpl skipn in N. apply str_in_cons_false in H. destruct H as [_ H].
    change ((c :: l) ++ sep ++ rest) with (c :: l ++ sep ++ rest) in *.
    cbn [split_from]. rewrite N by (unfold len; simpl; lia).
    rewrite (IH H). reflexivity.
Qed.

(** Lines that hold no separator, joined and split again, are the
    same lines. *)
Lemma split_join (sep : str) (lines : list str) :
  unbordered sep = true ->
  sep <> [] ->
  lines <> [] ->
  Forall (fun l => str_in sep l = false) lines ->
  split sep (join sep lines) = lines.
Proof.
  intros U Hs Hn Hall. unfold split.
  induction lines as [|l ls IH]; [congruence|].
  inversion Hall as [|? ? Hl Hls]; subst.
  destruct ls as [|l2 ls].
  - simpl. apply split_from_line; assumption.
  - change (join sep (l :: l2 :: ls)) with (l ++ sep ++ join sep (l2 :: ls)).
    rewrite split_from_first by assumption.
    rewrite IH; [reflexivity | discriminate | exact Hls].
Qed.

Lemma replace_absent (old new s : str) :
  old <> [] -> str_in old s = false -> replace old new s = s.
Proof.
  intros Ho H. unfold replace. destruct old as [|x old]; [congruence|].
  induction s as [|c s IH]; [reflexivity|].
  apply str_in_cons_false in H. destruct H as [H0 H].
  cbn [replace_from]. rewrite H0, (IH H). reflexivity.
Qed.

Lemma replace_head (old s : str) :
  old <> [] -> str_in old s = false -> replace old [] (old ++ s) = s.
Proof.
  intros Ho H. pose proof (replace_absent old [] s Ho H) as R.
  unfold replace in *. destruct old as [|x old]; [congruence|].
  cbn [app replace_from].
  assert (E : startswith (x :: old ++ s) (x :: old) = true)
    by (apply startswith_app; exists s; reflexivity).
  rewrite E. simpl app.
  replace (len (x :: old) - 1) with (len old) by (unfold len; simpl; lia).
  rewrite replace_from_skip. exact R.
Qed.

(** X8. In a response whose header lines are joined by CRLF,
    [_get_location_url] returns what follows [LOCATION: ] on the
    first line that begins with [LOCATION:], when that line does
    begin with [LOCATION: ] and does not hold it a second time. *)
Theorem location_found (before after : list str) (u : str) :
  Forall (fun l => str_in CRLF l = false)
         (before ++ (LOCATION_SP ++ u) :: after) ->
  Forall (fun l => startswith l LOCATION_ = false) before ->
  str_in LOCATION_SP u = false ->
  _get_location_url (join CRLF (before ++ (LOCATION_SP ++ u) :: after)) = u.
Proof.
  intros Hall Hb Hu. unfold _get_location_url.
  rewrite split_join; [|reflexivity|discriminate| |exact Hall].
  2: { destruct before; discriminate. }
  change (lit "LOCATION:") with LOCATION_.
  change (lit "LOCATION: ") with LOCATION_SP.
  assert (F : find (fun d => startswith d LOCATION_)
                   (before ++ (LOCATION_SP ++ u) :: after)
              = Some (LOCATION_SP ++ u)).
  { clear Hall. induction before as [|b before IH]; [reflexivity|].
    inversion Hb as [|? ? Hb0 Hb']; subst. cbn [app find]. rewrite Hb0.
    apply IH. exact Hb'. }
  rewrite F. apply replace_head; [discriminate | exact Hu].
Qed.

Lemma location_found_witness :
  _get_location_url
    (join CRLF ([lit "HTTP/1.1 200 OK"; lit "CACHE-CONTROL: max-age=1800"]
                  ++ (LOCATION_SP ++ lit "http://10.0.0.5:80/desc.xml")
                  :: [lit "ST: upnp:rootdevice"; []; []]))
  = lit "http://10.0.0.5:80/desc.xml".
Proof.
  apply (location_found
           [lit "HTTP/1.1 200 OK"; lit "CACHE-CONTROL: max-age=1800"]
           [lit "ST: upnp:rootdevice"; []; []]
           (lit "http://10.0.0.5:80/desc.xml")).
  - repeat constructor.
  - repeat constructor.
  - reflexivity.
Defined.

(** ** The stream socket *)

(** X10. Once [_send_tcp] has its socket, it closes it on every path, and
    closing is the last thing it does. *)
Theorem send_tcp_closes (to : str * option Z) (payload : str) (net : network) :
  net O <> TcpNoSocket ->
  exists used,
    snd (_send_tcp to payload net) = [OpSocket TCP] ++ used ++ [OpClose TCP]
    /\ forallb in_use used = true.
Proof.
  intros H.
  exists (removelast (tl (snd (_send_tcp to payload net)))).
  send_tcp_paths to payload net; try congruence; split; reflexivity.
Qed.

Lemma send_tcp_closes_witness :
  exists used,
    snd (_send_tcp (lit "10.0.0.5", Some 80%Z) (lit "x") refuses_first)
    = [OpSocket TCP] ++ used ++ [OpClose TCP]
    /\ forallb in_use used = true.
Proof.
  apply (send_tcp_closes (lit "10.0.0.5", Some 80%Z) (lit "x") refuses_first).
  discriminate.
Defined.

(** X11. [_send_tcp] returns exactly when all is well with the
    connection, the port is a number that [connect] takes and the
    text can be encoded. In every other case it raises:
    [UnboundLocalError] when no socket could be made, whatever else
    is wrong; with a socket, [TypeError] on a port that is [None];
    and, when the host is read and resolved, [OverflowError] on a
    number that is no port, before the connection is tried. *)
Theorem send_tcp_returns_iff (to : str * option Z) (payload : str)
        (net : network) :
  (fst (fst (_send_tcp to payload net)) = Ok tt
   <-> net O = TcpFine
       /\ (exists p, snd to = Some p /\ (0 <= p <= 65535)%Z)
       /\ encode payload <> None)
  /\ (fst (fst (_send_tcp to payload net)) <> Ok tt ->
      exists e, fst (fst (_send_tcp to payload net)) = Raise e)
  /\ (net O = TcpNoSocket ->
      fst (fst (_send_tcp to payload net)) = Raise UnboundLocalError)
  /\ (net O <> TcpNoSocket -> snd to = None ->
      fst (fst (_send_tcp to payload net)) = Raise TypeError)
  /\ (net O = TcpFine \/ net O = TcpNoConnect \/ net O = TcpNoSendall ->
      forall p, snd to = Some p -> ~ (0 <= p <= 65535)%Z ->
      fst (fst (_send_tcp to payload net)) = Raise OverflowError).
Proof.
  assert (V : forall p, valid_port p = true <-> (0 <= p <= 65535)%Z).
  { intros p. unfold valid_port. rewrite andb_true_iff, !Z.leb_le. tauto. }
  assert (F : forall p, fits_int p = false -> valid_port p = false).
  { intros p. unfold fits_int, valid_port.
    rewrite !andb_false_iff, !Z.leb_gt. lia. }
  split; [|split; [|split; [|split]]].
  - split.
    + send_tcp_paths to payload net; try discriminate.
      intros _. split; [reflexivity|]. split; [|discriminate].
      eexists. split; [reflexivity|]. apply V. assumption.
    + intros [E [[p [Ep R]] Hb]]. apply V in R. unfold _send_tcp.
      rewrite E, Ep, R.
      destruct (fits_int p) eqn:Fp; [|apply F in Fp; congruence].
      destruct (encode payload); [reflexivity | congruence].
  - intros H. destruct (send_tcp_ends to payload net) as [E|E];
      [congruence | exact E].
  - unfold _send_tcp. intros ->. reflexivity.
  - unfold _send_tcp. intros H ->.
    destruct (net O); first [reflexivity | congruence].
  - unfold _send_tcp. intros H p -> R.
    destruct (valid_port p) eqn:Vp; [apply V in Vp; contradiction|].
    destruct (fits_int p);
      destruct H as [-> | [-> | ->]]; reflexivity.
Qed.

(** ** The length announced *)

Lemma request_head (d : DlnapDevice) (action : str) (n : nat) (payload : str) :
  join CRLF (request_lines d action n ++ [payload])
  = (join CRLF (firstn 5 (request_lines d action n))
     ++ CRLF ++ lit "Content-Length: " ++ str_of_Z (Z.of_nat n)
     ++ CRLF ++ soap_action action ++ CRLF ++ lit "Connection: close"
     ++ CRLF ++ CRLF) ++ payload.
Proof. rewrite request_cut, <- !app_assoc. reflexivity. Qed.

(** A request whose body is ASCII announces as many octets as the
    body has. *)
Lemma announced_length (d : DlnapDevice) (action payload : str) (b : bytes) :
  is_ascii payload = true ->
  encode (join CRLF (request_lines d action (len payload) ++ [payload]))
  = Some b ->
  exists top head body,
    encode (top ++ CRLF ++ lit "Content-Length: "
                ++ str_of_Z (Z.of_nat (len body))
                ++ CRLF ++ soap_action action ++ CRLF
                ++ lit "Connection: close" ++ CRLF ++ CRLF)
    = Some head
    /\ encode payload = Some body
    /\ b = head ++ body.
Proof.
  intros A H. rewrite request_head, encode_app in H.
  destruct (encode_ascii payload A) as [body [Eb Lb]].
  rewrite Eb in H. rewrite <- Lb in H.
  destruct (encode _) as [head|] eqn:Eh; [|discriminate].
  injection H as <-.
  exists (join CRLF (firstn 5 (request_lines d action (len body)))), head, body.
  auto.
Qed.

(** X12. For an ASCII url, whatever [_set_av] hands to [sendall] is a
    header that ends with the [Content-Length] line, the
    [SOAPACTION] line, the closing line and the blank line, followed
    by the octets of the SOAP body, and the number on the
    [Content-Length] line is the number of those octets. *)
Theorem set_av_content_length_ascii (d : DlnapDevice) (url : str)
        (instance_id : Z) (net : network) (b : bytes) :
  is_ascii url = true ->
  In (OpSendall b) (snd (_set_av d url instance_id net)) ->
  exists top head body,
    encode (top ++ CRLF ++ lit "Content-Length: "
                ++ str_of_Z (Z.of_nat (len body))
                ++ CRLF ++ soap_action (lit "SetAVTransportURI") ++ CRLF
                ++ lit "Connection: close" ++ CRLF ++ CRLF)
    = Some head
    /\ encode (set_av_payload url instance_id) = Some body
    /\ b = head ++ body.
Proof.
  intros A H. apply send_tcp_sendall in H.
  apply (announced_length d _ _ b (set_av_payload_ascii url instance_id A) H).
Qed.

(** X13. Whatever [_play] hands to [sendall] is a header that ends with
    the [Content-Length] line, the [SOAPACTION] line, the closing
    line and the blank line, followed by the octets of the SOAP
    body, and the number on the [Content-Length] line is the number
    of those octets: the Play body is ASCII whatever the instance
    id. *)
Theorem play_content_length (d : DlnapDevice) (instance_id : Z)
        (net : network) (b : bytes) :
  In (OpSendall b) (snd (_play d instance_id net)) ->
  exists top head body,
    encode (top ++ CRLF ++ lit "Content-Length: "
                ++ str_of_Z (Z.of_nat (len body))
                ++ CRLF ++ soap_action (lit "Play") ++ CRLF
                ++ lit "Connection: close" ++ CRLF ++ CRLF)
    = Some head
    /\ encode (play_payload instance_id) = Some body
    /\ b = head ++ body.
Proof.
  intros H. apply send_tcp_sendall in H.
  apply (announced_length d _ _ b (play_payload_ascii instance_id) H).
Qed.

Lemma set_av_content_length_ascii_witness :
  exists b top head body,
    snd (_set_av sample_device (lit "http://h/a.mp3") 0 all_fine)
    = [OpSocket TCP; OpConnect (lit "10.0.0.5", Some 80%Z); OpSendall b;
       OpClose TCP]
    /\ encode (top ++ CRLF ++ lit "Content-Length: "
                   ++ str_of_Z (Z.of_nat (len body))
                   ++ CRLF ++ soap_action (lit "SetAVTransportURI") ++ CRLF
                   ++ lit "Connection: close" ++ CRLF ++ CRLF)
       = Some head
    /\ encode (set_av_payload (lit "http://h/a.mp3") 0) = Some body
    /\ b = head ++ body.
Proof.
  assert (O : snd (_set_av sample_device (lit "http://h/a.mp3") 0 all_fine)
              = [OpSocket TCP; OpConnect (lit "10.0.0.5", Some 80%Z);
                 OpSendall (octets (set_av_request sample_device
                                      (lit "http://h/a.mp3") 0));
                 OpClose TCP])
    by (vm_compute; reflexivity).
  assert (I : In (OpSendall (octets (set_av_request sample_device
                                       (lit "http://h/a.mp3") 0)))
                 (snd (_set_av sample_device (lit "http://h/a.mp3") 0 all_fine)))
    by (rewrite O; simpl; auto).
  destruct (set_av_content_length_ascii sample_device (lit "http://h/a.mp3") 0
              all_fine _ eq_refl I)
    as [top [head [body K]]].
  eexists _, top, head, body. split; [exact O | exact K].
Defined.

Lemma play_content_length_witness :
  exists b top head body,
    snd (_play sample_device 0 all_fine)
    = [OpSocket TCP; OpConnect (lit "10.0.0.5", Some 80%Z); OpSendall b;
       OpClose TCP]
    /\ encode (top ++ CRLF ++ lit "Content-Length: "
                   ++ str_of_Z (Z.of_nat (len body))
                   ++ CRLF ++ soap_action (lit "Play") ++ CRLF
                   ++ lit "Connection: close" ++ CRLF ++ CRLF)
       = Some head
    /\ encode (play_payload 0) = Some body
    /\ b = head ++ body.
Proof.
  assert (O : snd (_play sample_device 0 all_fine)
              = [OpSocket TCP; OpConnect (lit "10.0.0.5", Some 80%Z);
                 OpSendall (octets (play_request sample_device 0));
                 OpClose TCP])
    by (vm_compute; reflexivity).
  assert (I : In (OpSendall (octets (play_request sample_device 0)))
                 (snd (_play sample_device 0 all_fine)))
    by (rewrite O; simpl; auto).
  destruct (play_content_length sample_device 0 all_fine _ I)
    as [top [head [body K]]].
  eexists _, top, head, body. split; [exact O | exact K].
Defined.

(** ** How long what is read can be *)

Lemma decode_N_len (n : nat) :
  forall (b : list N) (s : str),
    len b <= n -> decode_N b = Some s -> len s <= len b.
Proof.
  unfold len. induction n as [|n IH]; intros b s L H.
  - destruct b; [|simpl in L; lia]. injection H as <-. simpl. lia.
  - destruct b as [|b0 r0]; [injection H as <-; simpl; lia|].
    assert (K : forall (r : list N) (c : char) (t : str),
               List.length r <= n ->
               option_map (cons c) (decode_N r) = Some t ->
               List.length t <= S (List.length r)).
    { intros r c t Lr Ht. destruct (decode_N r) as [u|] eqn:E; [|discriminate].
      injection Ht as <-. pose proof (IH r u Lr E). simpl. lia. }
    simpl in L. cbn [decode_N] in H.
    destruct (b0 <? 128)%N.
    { pose proof (K r0 _ _ ltac:(lia) H). simpl. lia. }
    destruct r0 as [|b1 r1]; [discriminate|]. simpl in L.
    destruct (in_range 194 223 b0).
    { destruct (is_cont b1); [|discriminate].
      pose proof (K r1 _ _ ltac:(lia) H). simpl. lia. }
    destruct r1 as [|b2 r2]; [discriminate|]. simpl in L.
    destruct (in_range 224 239 b0).
    { match type of H with (if ?c then _ else _) = _ => destruct c end;
        [|discriminate].
      pose proof (K r2 _ _ ltac:(lia) H). simpl. lia. }
    destruct r2 as [|b3 r3]; [discriminate|]. simpl in L.
    destruct (in_range 240 244 b0); [|discriminate].
    match type of H with (if ?c then _ else _) = _ => destruct c end;
      [|discriminate].
    pose proof (K r3 _ _ ltac:(lia) H). simpl. lia.
Qed.

(** A text has no more code points than its encoding has octets. *)
Lemma decode_len (b : bytes) (s : str) : decode b = Some s -> len s <= len b.
Proof.
  unfold decode. intros H.
  apply (decode_N_len (len (map Byte.to_N b))) in H; [|lia].
  unfold len in *. rewrite length_map in H. exact H.
Qed.

Lemma replace_from_len (old : str) (s : str) :
  forall skip, len (replace_from old [] skip s) <= len s.
Proof.
  unfold len. induction s as [|c s IH]; intros skip; simpl; [lia|].
  destruct skip as [|k].
  - destruct (startswith (c :: s) old).
    + simpl. unfold len. specialize (IH (List.length old - 1)). lia.
    + simpl. specialize (IH 0). lia.
  - specialize (IH k). lia.
Qed.

Lemma split_from_len (sep : str) (s : str) :
  forall skip, Forall (fun l => len l <= len s) (split_from sep skip s).
Proof.
  unfold len. induction s as [|c s IH]; intros skip; simpl.
  - constructor; [simpl; lia | constructor].
  - assert (W : forall k, Forall (fun l : str => List.length l <= S (List.length s))
                                 (split_from sep k s)).
    { intros k. eapply Forall_impl; [|apply (IH k)]. simpl. intros; lia. }
    destruct skip as [|k]; [|apply W].
    destruct (startswith (c :: s) sep).
    + constructor; [simpl; lia | apply W].
    + specialize (IH 0). destruct (split_from sep 0 s) as [|l ls].
      * constructor; [simpl; lia | constructor].
      * inversion IH; subst. constructor; [simpl; lia|].
        eapply Forall_impl; [|eassumption]. simpl. intros; lia.
Qed.

(** The location is no longer than the response it is read from. *)
Lemma location_len (text : str) : len (_get_location_url text) <= len text.
Proof.
  unfold _get_location_url.
  destruct (find _ _) as [d|] eqn:E; [|unfold len; simpl; lia].
  apply find_some in E. destruct E as [Hin _].
  pose proof (split_from_len CRLF text 0) as F. rewrite Forall_forall in F.
  specialize (F d Hin).
  pose proof (replace_from_len (lit "LOCATION: ") d 0) as R.
  unfold replace. change (lit "LOCATION: ") with (76%N :: lit "OCATION: ") at 1.
  cbv iota. change (76%N :: lit "OCATION: ") with (lit "LOCATION: "). lia.
Qed.

(** The rest of the pattern a greedy star settles on is applied to
    what remains of the text. *)
Lemma star_greedy_some (A : Type) (p : char -> bool) (k : str -> option A)
      (r : A) :
  forall s, star_greedy p k s = Some r ->
            exists b, len b <= len s /\ k b = Some r.
Proof.
  unfold len. induction s as [|c s IH]; simpl; intros H.
  - exists []. auto.
  - destruct (p c).
    + destruct (star_greedy p k s) as [r'|] eqn:E.
      * injection H as <-. destruct (IH eq_refl) as [b [L K]].
        exists b. split; [lia | exact K].
      * exists (c :: s). auto.
    + exists (c :: s). auto.
Qed.

Lemma rmatch_within (r : regex) :
  forall n k, within n k -> within n (rmatch r k).
Proof.
  induction r as [l|p|p|a IHa b IHb|a IHa]; intros n k W s gs res Ls Lg H;
    cbn [rmatch] in H.
  - destruct (strip_prefix l s) as [s'|] eqn:E; [|discriminate].
    apply strip_prefix_app in E. subst s.
    apply (W s' gs res); [|exact Lg|exact H].
    unfold len in *. rewrite length_app in Ls. lia.
  - destruct s as [|c s']; [discriminate|].
    destruct (p c); [|discriminate].
    apply (W s' gs res); [|exact Lg|exact H].
    unfold len in *. simpl in Ls. lia.
  - apply star_greedy_some in H. destruct H as [s' [L H]].
    apply (W s' gs res); [lia|exact Lg|exact H].
  - apply (IHa n (rmatch b k) (IHb n k W) s gs res Ls Lg H).
  - refine (IHa n _ _ s gs res Ls Lg H).
    intros s' gs' r' Ls' Lg' H'.
    apply (W s' (gs' ++ [firstn (len s - len s') s]) r' Ls'); [|exact H'].
    apply Forall_app. split; [exact Lg'|].
    constructor; [|constructor].
    unfold len in *. rewrite length_firstn. lia.
Qed.

Lemma match_here_within (r : regex) (s : str) (gs : list str) (rest : str) :
  match_here r s = Some (gs, rest) -> len (hd [] gs) <= len s.
Proof.
  unfold match_here. intros H.
  assert (F : Forall (fun g => len g <= len s) gs).
  { apply (rmatch_within r (len s) (fun s' gs' => Some (gs', s'))) in H;
      [exact H| |lia|constructor].
    intros s' gs' r' _ Lg' H'. injection H' as <-. exact Lg'. }
  destruct gs as [|g gs']; [unfold len; simpl; lia|].
  inversion F; subst. assumption.
Qed.

(** What [findall] reports is no longer than the text it reads. *)
Lemma findall_within (r : regex) (fuel : nat) :
  forall s, Forall (fun g => len g <= len s) (findall_from fuel r s).
Proof.
  induction fuel as [|fuel IH]; intros s; [constructor|].
  assert (T : forall c s', s = c :: s' ->
                Forall (fun g => len g <= len s) (findall_from fuel r s')).
  { intros c s' ->. eapply Forall_impl; [|apply (IH s')].
    unfold len. simpl. intros; lia. }
  cbn [findall_from].
  destruct (match_here r s) as [[gs rest]|] eqn:E.
  - constructor; [apply (match_here_within r s gs rest E)|].
    destruct (Nat.ltb_spec (len rest) (len s)) as [L|L].
    + eapply Forall_impl; [|apply (IH rest)]. simpl. intros; lia.
    + destruct s as [|c s']; [constructor | apply (T c s' eq_refl)].
  - destruct s as [|c s']; [constructor | apply (T c s' eq_refl)].
Qed.

(** ** Building a device *)

Section Device_properties.

Variable dd : char -> option N.

(** [int] takes the port of every location that is not longer than
    the runs it converts. *)
Lemma get_port_returns (location : str) :
  len location <= max_str_digits ->
  exists p, _get_port dd location = Ok p.
Proof.
  intros L. unfold _get_port, findall.
  pose proof (findall_within (re_port dd) (S (len location)) location) as F.
  destruct (findall_from _ _ _) as [|ds more]; [exists 80%Z; reflexivity|].
  inversion F; subst. unfold int_of.
  destruct (Nat.ltb_spec max_str_digits (len ds)); [lia|].
  eexists. reflexivity.
Qed.

(** X15. The constructor fetches the location of the response and no
    other address: two networks that answer alike there give the
    same device. *)
Theorem init_fetches_location_only data addr text urlopen urlopen' :
  decode data = Some text ->
  urlopen (_get_location_url text) = urlopen' (_get_location_url text) ->
  DlnapDevice_init dd data addr urlopen = DlnapDevice_init dd data addr urlopen'.
Proof.
  intros H E. unfold DlnapDevice_init. rewrite H, E. reflexivity.
Qed.

(** [_send_tcp] raises [TypeError] only for a port that is [None] or
    a host that [connect] cannot read. *)
Lemma send_tcp_type_error to payload net :
  fst (fst (_send_tcp to payload net)) = Raise TypeError ->
  snd to = None \/ net O = TcpNoHost.
Proof. send_tcp_paths to payload net; intros H; try discriminate; auto. Qed.

(** X16. A device that the constructor has built from a datagram of no
    more octets than [int] converts digits (and [discover] reads at
    most 1024) has the sender's address and a port, the one
    [_get_port] reads in its location. So [play] raises [TypeError]
    on it only when [connect] cannot read the address, in the first
    send or in the second. *)
Theorem built_device_has_port data addr urlopen d :
  len data <= max_str_digits ->
  DlnapDevice_init dd data addr urlopen = Ok d ->
  ip d = addr
  /\ (exists p, _get_port dd (location d) = Ok p /\ port d = Some p)
  /\ forall url net,
      fst (fst (play d url net)) = Raise TypeError ->
      net 0 = TcpNoHost \/ net 1 = TcpNoHost.
Proof.
  intros L. unfold DlnapDevice_init.
  destruct (decode data) as [text|] eqn:Ed; [|discriminate].
  assert (Ll : len (_get_location_url text) <= max_str_digits).
  { pose proof (decode_len data text Ed). pose proof (location_len text). lia. }
  destruct (get_port_returns _ Ll) as [p Ep]. rewrite Ep.
  intros H.
  assert (P : ip d = addr /\ location d = _get_location_url text
              /\ port d = Some p).
  { destruct (opt_bind _ decode); injection H as <-; repeat split. }
  destruct P as [Pi [Pl Pp]]. split; [exact Pi|].
  split; [exists p; rewrite Pl; auto|].
  intros url net. unfold play, bind, _set_av, _play.
  destruct (_send_tcp (ip d, port d) (set_av_request d url 0) net)
    as [[r1 net1] ops1] eqn:E1.
  assert (T : forall payload n,
             fst (fst (_send_tcp (ip d, port d) payload n)) = Raise TypeError ->
             n O = TcpNoHost).
  { intros payload n X. apply send_tcp_type_error in X.
    cbn [snd] in X. rewrite Pp in X. destruct X as [X|X]; [discriminate|exact X]. }
  destruct r1 as [[]|e|].
  - destruct (send_tcp_returns _ _ _ _ _ E1) as [_ [_ [-> _]]].
    destruct (_send_tcp (ip d, port d) (play_request d 0) (next net))
      as [[r2 net2] ops2] eqn:E2.
    cbn [fst]. intros ->. right.
    apply (T (play_request d 0) (next net)). rewrite E2. reflexivity.
  - cbn [fst]. intros X. injection X as ->. left.
    apply (T (set_av_request d url 0) net). rewrite E1. reflexivity.
  - discriminate.
Qed.

End Device_properties.

Lemma init_fetches_location_only_witness :
  DlnapDevice_init ascii_decimal (octets sample_response) (lit "10.0.0.5")
                   unreachable
  = DlnapDevice_init ascii_decimal (octets sample_response) (lit "10.0.0.5")
      (fun u => if str_eqb u (lit "http://10.0.0.5:80/desc.xml") then None
                else Some []).
Proof.
  apply (init_fetches_location_only ascii_decimal (octets sample_response)
           (lit "10.0.0.5") sample_response).
  - vm_compute. reflexivity.
  - vm_compute. reflexivity.
Defined.

Lemma built_device_has_port_witness :
  exists d,
    DlnapDevice_init ascii_decimal (octets sample_response) (lit "10.0.0.5")
                     (serves sample_description) = Ok d
    /\ port d = Some 80%Z.
Proof.
  destruct (DlnapDevice_init ascii_decimal (octets sample_response)
              (lit "10.0.0.5") (serves sample_description)) as [d| |] eqn:E;
    try (vm_compute in E; discriminate).
  exists d. split; [reflexivity|].
  destruct (built_device_has_port ascii_decimal (octets sample_response)
              (lit "10.0.0.5") (serves sample_description) d)
    as [_ [[p [G P]] _]].
  - apply Nat.leb_le. vm_compute. reflexivity.
  - exact E.
  - rewrite P. f_equal.
    vm_compute in E. injection E as <-. vm_compute in G. congruence.
Defined.

(** ** A port that [int] refuses *)

Section Long_port.

Variable dd : char -> option N.

(** X14. A failure before the fetch is absorbed like one of the fetch.
    When the location names a port of more digits than [int]
    converts, the constructor still returns a device: its [port] is
    left at [None], nothing is fetched (the network plays no part),
    and [name] and [control_url] are unset. [play] on that device
    gets no further than [connect], which raises [TypeError]; the
    socket is closed. *)
Theorem port_too_long_is_absorbed data addr urlopen text pre host ds rest :
  decode data = Some text ->
  _get_location_url text = pre ++ HTTP ++ host ++ [COLON] ++ ds ++ rest ->
  dd COLON = None ->
  str_in HTTP pre = false ->
  forallb dot host = true ->
  forallb (is_digit dd) ds = true ->
  no_digit_first (is_digit dd) rest = true ->
  colon_digit (is_digit dd) rest = false ->
  max_str_digits < len ds ->
  exists d,
    DlnapDevice_init dd data addr urlopen = Ok d
    /\ ip d = addr /\ port d = None /\ name d = None /\ control_url d = None
    /\ (forall urlopen', DlnapDevice_init dd data addr urlopen' = Ok d)
    /\ forall url net,
        net O <> TcpNoSocket ->
        play d url net
        = (Raise TypeError, next net,
           [OpSocket TCP; OpConnect (addr, None); OpClose TCP]).
Proof.
  intros Hdec Hloc Hc Hpre Dh Dd Hnd Hcd Long.
  assert (Hne : ds <> []).
  { intros ->. unfold len in Long. simpl in Long. lia. }
  pose proof (port_digits dd pre host ds rest Hc Hpre Dh Hne Dd Hnd Hcd) as P.
  unfold int_of in P. apply Nat.ltb_lt in Long. rewrite Long in P.
  rewrite <- Hloc in P.
  assert (I : forall u,
             DlnapDevice_init dd data addr u
             = Ok {| raw := text; ip := addr; port := None;
                     control_url := None; name := None;
                     has_av_transport := false;
                     location := _get_location_url text; desc_xml := None |}).
  { intros u. unfold DlnapDevice_init. rewrite Hdec, P. reflexivity. }
  eexists. split; [apply I|]. repeat split.
  - exact I.
  - intros url net Hs. unfold play, bind, _set_av, _send_tcp. cbn [ip port snd].
    destruct (net O); try congruence; reflexivity.
Qed.

End Long_port.

Lemma port_too_long_is_absorbed_witness :
  exists d,
    DlnapDevice_init ascii_decimal (octets long_port_response) (lit "10.0.0.5")
                     (serves sample_description) = Ok d
    /\ port d = None
    /\ fst (fst (play d (lit "http://h/a.mp3") all_fine)) = Raise TypeError.
Proof.
  destruct (port_too_long_is_absorbed ascii_decimal (octets long_port_response)
              (lit "10.0.0.5") (serves sample_description) long_port_response
              [] (lit "10.0.0.5") (repeat 57%N 4301) (lit "/desc.xml"))
    as [d [I [_ [P [_ [_ [_ K]]]]]]].
  - vm_compute. reflexivity.
  - vm_compute. reflexivity.
  - reflexivity.
  - reflexivity.
  - reflexivity.
  - vm_compute. reflexivity.
  - reflexivity.
  - reflexivity.
  - apply Nat.ltb_lt. vm_compute. reflexivity.
  - exists d. split; [exact I|]. split; [exact P|].
    rewrite (K (lit "http://h/a.mp3") all_fine); [reflexivity | discriminate].
Defined.

(** ** Printing a device *)



(** ** More on discovery *)

Section Discovery_properties.

Variable dd : char -> option N.

Lemma loop_deadline wanted pre post post' :
  forall devices,
    loop dd wanted devices (pre ++ Timeout :: post)
    = loop dd wanted devices (pre ++ Timeout :: post').
Proof.
  induction pre as [|e pre IH]; intros devices; [reflexivity|].
  simpl. destruct e as [|data addr urlopen| | |]; try reflexivity;
    [|apply IH].
  destruct (DlnapDevice_init dd data addr urlopen) as [d| |]; try reflexivity.
  destruct (device_in d devices); [apply IH|].
  destruct (keeps wanted d) as [[|]| |]; try reflexivity; apply IH.
Qed.

(** X18. What comes after the deadline has no effect on the call. *)
Theorem deadline_cuts wanted st mx fate pre post post' :
  discover dd wanted st mx fate (pre ++ Timeout :: post)
  = discover dd wanted st mx fate (pre ++ Timeout :: post').
Proof.
  unfold discover, with_.
  rewrite (loop_deadline wanted pre post post' []). reflexivity.
Qed.

(** X19. A socket in error, a datagram that cannot be read or one that is
    not UTF-8, met before the deadline, leaves no list at all: the
    devices found until then are lost. *)
Theorem no_partial_result wanted st mx fate pre e post :
  ~ In Timeout pre ->
  fatal e = true ->
  forall devs, fst (discover dd wanted st mx fate (pre ++ e :: post)) <> Ok devs.
Proof.
  intros NT F devs H.
  destruct (discover dd wanted st mx fate (pre ++ e :: post)) as [r ops] eqn:E.
  simpl in H. subst r. apply discover_loop in E.
  destruct (loop_prefix dd wanted pre _ [] devs NT E) as [devices [H' _]];
    [constructor|].
  destruct e as [|data addr urlopen| | |]; simpl in F, H'; try discriminate.
  unfold DlnapDevice_init in H'.
  destruct (decode data); discriminate.
Qed.

(** X20. The turns in which nothing can be read change nothing. *)
Theorem idle_turns_do_not_matter wanted st mx fate events :
  discover dd wanted st mx fate (filter (fun e => negb (is_idle e)) events)
  = discover dd wanted st mx fate events.
Proof.
  unfold discover, with_.
  assert (L : forall devices,
             loop dd wanted devices (filter (fun e => negb (is_idle e)) events)
             = loop dd wanted devices events).
  { induction events as [|e rest IH]; intros devices; [reflexivity|].
    destruct e as [|data addr urlopen| | |]; simpl; try reflexivity;
      [|apply IH].
    destruct (DlnapDevice_init dd data addr urlopen) as [d| |]; try reflexivity.
    destruct (device_in d devices); [apply IH|].
    destruct (keeps wanted d) as [[|]| |]; try reflexivity; apply IH. }
  rewrite L. reflexivity.
Qed.

Lemma sublist_refl (A : Type) (l : list A) : sublist l l.
Proof. induction l; simpl; auto. Qed.

Lemma sublist_skip (A : Type) (x : A) (l m : list A) :
  sublist l m -> sublist l (x :: m).
Proof. destruct l; simpl; auto. Qed.

Lemma device_in_app d a b :
  device_in d (a ++ b) = device_in d a || device_in d b.
Proof. unfold device_in. apply existsb_app. Qed.

Lemma device_in_refl d l : device_in d (l ++ [d]) = true.
Proof.
  rewrite device_in_app. unfold device_in at 2. simpl.
  assert (E : DlnapDevice_eq d d = true) by (apply DlnapDevice_eq_key; reflexivity).
  rewrite E. apply orb_true_r.
Qed.

(** Without a filter the loop gets to the deadline whenever every
    turn before it can be taken, and it appends the devices that
    answered, the first of each kind, in the order of the answers. *)
Lemma loop_arrivals events :
  forall l devices,
    arrivals dd events = Some l ->
    exists more,
      loop dd None devices events = Ok (devices ++ more)
      /\ sublist more l
      /\ forall d, In d l -> device_in d (devices ++ more) = true.
Proof.
  induction events as [|e rest IH]; intros l devices A; simpl in A.
  - discriminate.
  - destruct e as [|data addr urlopen| | |]; try discriminate.
    + injection A as <-. exists []. simpl. rewrite app_nil_r.
      repeat split. intros d [].
    + simpl. destruct (DlnapDevice_init dd data addr urlopen) as [d| |];
        try discriminate.
      destruct (arrivals dd rest) as [l'|] eqn:A'; [|discriminate].
      injection A as <-.
      destruct (device_in d devices) eqn:Ein.
      * destruct (IH l' devices eq_refl) as [more [L [S I]]].
        exists more. split; [exact L|]. split; [apply sublist_skip, S|].
        intros x [<-|Hx]; [|apply I, Hx].
        rewrite device_in_app, Ein. reflexivity.
      * destruct (IH l' (devices ++ [d]) eq_refl) as [more [L [S I]]].
        exists (d :: more).
        replace (devices ++ d :: more) with ((devices ++ [d]) ++ more)
          by (rewrite <- app_assoc; reflexivity).
        split; [exact L|]. split; [simpl; left; split; [reflexivity|exact S]|].
        intros x [<-|Hx]; [|apply I, Hx].
        rewrite device_in_app, device_in_refl. reflexivity.
    + simpl. apply IH. exact A.
Qed.

(** X21. A call without a filter returns whenever every turn before the
    deadline can be taken, with its socket opened, used for the one
    probe and closed. The list it returns is drawn from the devices
    that answered, in the order of their answers, and holds a device
    equal to each of them. *)
Theorem unfiltered_discovery st mx events l :
  encode st <> None ->
  arrivals dd events = Some l ->
  exists out b,
    discover dd None st mx UdpFine events
    = (Ok out, [OpSocket UDP; OpSendto b SSDP_GROUP; OpClose UDP])
    /\ sublist out l
    /\ forall d, In d l -> device_in d out = true.
Proof.
  intros Hst A.
  pose proof (encode_msearch st mx Hst) as He.
  destruct (encode (msearch st mx)) as [b|] eqn:E; [|congruence].
  destruct (loop_arrivals events l [] A) as [more [L [S I]]].
  exists more, b. rewrite (discover_entered dd None st mx events b E).
  simpl in L. rewrite L. auto.
Qed.

End Discovery_properties.

Lemma no_partial_result_witness :
  fst (discover ascii_decimal None (lit "ssdp:all") 3 UdpFine
                ([sample_readable; Idle] ++ Errored :: [Timeout]))
  <> Ok [].
Proof.
  apply (no_partial_result ascii_decimal None (lit "ssdp:all") 3 UdpFine
           [sample_readable; Idle] Errored [Timeout]).
  - simpl. intuition discriminate.
  - reflexivity.
Defined.

Lemma unfiltered_discovery_witness :
  exists l out b,
    arrivals ascii_decimal [sample_readable; Idle; sample_readable; Timeout]
    = Some l
    /\ discover ascii_decimal None (lit "ssdp:all") 3 UdpFine
                [sample_readable; Idle; sample_readable; Timeout]
       = (Ok out, [OpSocket UDP; OpSendto b SSDP_GROUP; OpClose UDP])
    /\ sublist out l.
Proof.
  destruct (arrivals ascii_decimal
              [sample_readable; Idle; sample_readable; Timeout]) as [l|] eqn:A;
    [|vm_compute in A; discriminate].
  destruct (unfiltered_discovery ascii_decimal (lit "ssdp:all") 3
              [sample_readable; Idle; sample_readable; Timeout] l)
    as [out [b [D [S _]]]].
  - vm_compute. discriminate.
  - exact A.
  - exists l, out, b. auto.
Defined.

(** ** Concrete runs of the earlier lemmas *)

Lemma friendly_name_absent_witness :
  _get_friendly_name (lit "<root><name>TV</name></root>") = lit "Unknown".
Proof. apply friendly_name_absent. reflexivity. Defined.

Lemma control_url_absent_witness :
  _get_control_url
    (lit "<serviceType>urn:schemas-upnp-org:service:RenderingControl:1</serviceType><controlURL>/rc</controlURL>")
  = [].
Proof. apply control_url_absent. reflexivity. Defined.

Lemma location_absent_witness :
  _get_location_url
    (join CRLF [lit "HTTP/1.1 200 OK"; lit "Location: http://h/"; []; []])
  = [].
Proof. apply location_absent. reflexivity. Defined.

Lemma discover_returns_closed_witness :
  exists ops',
    snd (discover ascii_decimal None (lit "ssdp:all") 3 UdpFine
                  [sample_readable; Timeout])
    = ops' ++ [OpClose UDP].
Proof.
  destruct (discover ascii_decimal None (lit "ssdp:all") 3 UdpFine
                     [sample_readable; Timeout]) as [[devs| |] ops] eqn:E;
    try (vm_compute in E; discriminate).
  apply (discover_returns_closed ascii_decimal None (lit "ssdp:all") 3 UdpFine
           [sample_readable; Timeout] devs ops E).
Defined.

Lemma discover_filter_witness :
  exists all ops,
    discover ascii_decimal None (lit "ssdp:all") 3 UdpFine
             [sample_readable; Timeout] = (Ok all, ops)
    /\ discover ascii_decimal (Some (lit "TV")) (lit "ssdp:all") 3 UdpFine
                [sample_readable; Timeout]
       = (Ok (filter (name_has (lit "TV")) all), ops).
Proof.
  destruct (discover ascii_decimal None (lit "ssdp:all") 3 UdpFine
                     [sample_readable; Timeout]) as [[all| |] ops] eqn:E;
    try (vm_compute in E; discriminate).
  exists all, ops. split; [reflexivity|].
  apply (discover_filter ascii_decimal 84%N (lit "V") (lit "ssdp:all") 3
           UdpFine [sample_readable; Timeout] all ops E).
  vm_compute in E. injection E as <- _.
  repeat constructor. discriminate.
Defined.

(** ** The command line *)

(** X25. For the option names that [getopt] can return, the substring
    tests of the option loop decide as the equality tests they stand
    for: the missing commas do no harm. *)
Theorem option_tests_are_exact (opt : str) :
  In opt option_names ->
  str_in opt (lit "--list") = str_eqb opt (lit "--list")
  /\ str_in opt (lit "--play") = str_eqb opt (lit "--play")
  /\ str_in opt (lit "--pause") = str_eqb opt (lit "--pause")
  /\ str_in opt (lit "--stop") = str_eqb opt (lit "--stop").
Proof.
  unfold option_names. intros H.
  repeat (destruct H as [<-|H]; [repeat split; reflexivity|]).
  destruct H.
Qed.

Lemma option_tests_are_exact_witness :
  str_in (lit "-t") (lit "--list") = str_eqb (lit "-t") (lit "--list")
  /\ str_in (lit "-t") (lit "--play") = str_eqb (lit "-t") (lit "--play")
  /\ str_in (lit "-t") (lit "--pause") = str_eqb (lit "-t") (lit "--pause")
  /\ str_in (lit "-t") (lit "--stop") = str_eqb (lit "-t") (lit "--stop").
Proof.
  apply (option_tests_are_exact (lit "-t")). unfold option_names.
  simpl. auto 10.
Defined.

Lemma read_options_quit (opts : list (str * str)) :
  forall s,
    asks_to_quit opts = true ->
    exists lines, read_options opts s = inl (lines, 0%Z).
Proof.
  induction opts as [|[opt arg] rest IH]; intros s H; [discriminate|].
  unfold asks_to_quit in H. cbn [existsb fst] in H.
  cbn [read_options read_option].
  destruct (is_one_of opt [lit "-h"; lit "--help"]) eqn:Eh;
    [eexists; reflexivity|].
  destruct (is_one_of opt [lit "-v"; lit "--version"]) eqn:Ev;
    [eexists; reflexivity|].
  apply IH. apply orb_true_iff in H. destruct H as [H|H]; [|exact H].
  exfalso. unfold is_one_of in *. cbn [existsb] in *.
  repeat (apply orb_false_iff in Eh; destruct Eh as [? Eh]).
  repeat (apply orb_false_iff in Ev; destruct Ev as [? Ev]).
  repeat (apply orb_true_iff in H; destruct H as [H|H]); congruence.
Qed.

Lemma read_options_go (opts : list (str * str)) :
  forall s,
    asks_to_quit opts = false ->
    exists s',
      read_options opts s = inr s'
      /\ (timeout s' = Number ->
          timeout s = Number /\ gives_timeout opts = false).
Proof.
  induction opts as [|[opt arg] rest IH]; intros s H.
  - exists s. split; [reflexivity|]. auto.
  - unfold asks_to_quit in H. cbn [existsb fst] in H.
    apply orb_false_iff in H. destruct H as [H0 H].
    assert (Eh : is_one_of opt [lit "-h"; lit "--help"] = false).
    { unfold is_one_of in *. cbn [existsb] in *.
      repeat (apply orb_false_iff in H0; destruct H0 as [? H0]).
      repeat (apply orb_false_iff; split); assumption. }
    assert (Ev : is_one_of opt [lit "-v"; lit "--version"] = false).
    { unfold is_one_of in *. cbn [existsb] in *.
      repeat (apply orb_false_iff in H0; destruct H0 as [? H0]).
      repeat (apply orb_false_iff; split); assumption. }
    cbn [read_options read_option]. rewrite Eh, Ev.
    match goal with
    | |- context [read_options rest ?x] =>
        destruct (IH x H) as [s' [R T]]
    end.
    exists s'. split; [exact R|]. intros Hs'. specialize (T Hs').
    destruct T as [T1 T2].
    unfold gives_timeout. cbn [existsb fst].
    fold (gives_timeout rest). rewrite T2, orb_false_r.
    destruct (is_one_of opt [lit "-d"; lit "--device"]) eqn:Ed;
      destruct (is_one_of opt [lit "-t"; lit "--timeout"]) eqn:Et;
      destruct (str_in opt (lit "--list")), (str_in opt (lit "--play")),
        (str_in opt (lit "--pause")), (str_in opt (lit "--stop"));
      cbn [timeout] in T1; try discriminate; auto.
  all: exfalso; unfold is_one_of in Ed, Et; cbn [existsb] in Ed, Et;
    rewrite !orb_false_r in Ed, Et;
    apply orb_true_iff in Ed; apply orb_true_iff in Et;
    destruct Ed as [Ed|Ed], Et as [Et|Et];
    apply str_eqb_eq in Ed; apply str_eqb_eq in Et; subst opt; discriminate.
Qed.

Lemma read_options_app (before : list (str * str)) (o : str * str) :
  forall s,
    read_options (before ++ [o]) s
    = match read_options before s with
      | inl quit => inl quit
      | inr s' => read_option s' o
      end.
Proof.
  induction before as [|p before IH]; intros s; cbn [app read_options].
  - destruct (read_option s o); reflexivity.
  - destruct (read_option s p); [reflexivity | apply IH].
Qed.

Lemma not_quit_option (opt : str) :
  is_one_of opt [lit "-h"; lit "--help"; lit "-v"; lit "--version"] = false ->
  is_one_of opt [lit "-h"; lit "--help"] = false
  /\ is_one_of opt [lit "-v"; lit "--version"] = false.
Proof.
  unfold is_one_of. cbn [existsb]. intros H.
  repeat (apply orb_false_iff in H; destruct H as [? H]).
  split; repeat (apply orb_false_iff; split); assumption.
Qed.

(** Options that neither quit nor give a timeout leave [timeout] as
    it was. *)
Lemma read_options_number (opts : list (str * str)) :
  forall s,
    asks_to_quit opts = false ->
    gives_timeout opts = false ->
    exists s', read_options opts s = inr s' /\ timeout s' = timeout s.
Proof.
  induction opts as [|[opt arg] rest IH]; intros s Q T.
  - exists s. auto.
  - unfold asks_to_quit in Q. unfold gives_timeout in T.
    cbn [existsb fst] in Q, T.
    apply orb_false_iff in Q. destruct Q as [Q0 Q].
    apply orb_false_iff in T. destruct T as [T0 T].
    destruct (not_quit_option opt Q0) as [Eh Ev].
    cbn [read_options read_option]. rewrite Eh, Ev, T0.
    match goal with
    | |- context [read_options rest ?x] =>
        destruct (IH x Q T) as [s' [R K]]
    end.
    exists s'. split; [exact R|]. rewrite K.
    destruct (is_one_of opt [lit "-d"; lit "--device"]),
      (str_in opt (lit "--list")), (str_in opt (lit "--play")),
      (str_in opt (lit "--pause")), (str_in opt (lit "--stop"));
      reflexivity.
Qed.

Lemma read_option_pause (s : settings) (arg : str) :
  read_option s (lit "--pause", arg)
  = inr {| device := device s; url := url s; timeout := timeout s;
           action := lit "pause" |}.
Proof. reflexivity. Qed.

Lemma read_option_stop (s : settings) (arg : str) :
  read_option s (lit "--stop", arg)
  = inr {| device := device s; url := url s; timeout := timeout s;
           action := lit "stop" |}.
Proof. reflexivity. Qed.

Lemma read_option_play (s : settings) (arg : str) :
  read_option s (lit "--play", arg)
  = inr {| device := device s; url := arg; timeout := timeout s;
           action := lit "play" |}.
Proof. reflexivity. Qed.

Section Command_line_properties.

Variable dd : char -> option N.

(** X26. When [getopt] rejects the arguments, or some option asks for the
    usage text or the version, the script ends without any call on a
    socket: with status 1 in the first case, 0 in the second. *)
Theorem quits_without_network parsed fate events net :
  match parsed with
  | None => True
  | Some opts => asks_to_quit opts = true
  end ->
  calls (main dd parsed fate events net) = []
  /\ ended (main dd parsed fate events net)
     = Exit (match parsed with None => 1 | Some _ => 0 end).
Proof.
  destruct parsed as [opts|]; intros H; [|split; reflexivity].
  unfold main. destruct (read_options_quit opts defaults H) as [lines ->].
  split; reflexivity.
Qed.

(** X27. A [-t] or [--timeout] option, whatever its value, ends the
    script in [TypeError]: its text is passed to [discover] as it
    is, and the first deadline test compares a number with it. The
    probe has gone out by then and the socket is left open. *)
Theorem timeout_option_raises opts events net :
  asks_to_quit opts = false ->
  gives_timeout opts = true ->
  exists b,
    main dd (Some opts) UdpFine events net
    = {| said := [];
         calls := [OpSocket UDP; OpSendto b SSDP_GROUP];
         ended := Dies (Raised TypeError) |}.
Proof.
  intros Q T.
  destruct (read_options_go opts defaults Q) as [s [R K]].
  destruct (timeout s) as [|arg] eqn:Et.
  - destruct (K eq_refl) as [_ K']. congruence.
  - unfold main. rewrite R. unfold discover_timeout. rewrite Et.
    unfold with_, _send_udp. cbn [before_yield].
    destruct (encode (msearch (lit "ssdp:all") 3)) as [b|] eqn:E;
      [|vm_compute in E; discriminate].
    exists b. reflexivity.
Qed.

(** X28. [--pause] and [--stop], given last, end the script in
    [AttributeError] as soon as a device is found: the class has no
    such methods. Nothing is sent to the device. *)
Theorem pause_and_stop_are_missing before opt arg events fate net :
  asks_to_quit before = false ->
  gives_timeout before = false ->
  opt = lit "pause" \/ opt = lit "stop" ->
  exists s,
    read_options (before ++ [(lit "--" ++ opt, arg)]) defaults = inr s
    /\ forall d others ops,
        discover dd (Some (device s)) (lit "ssdp:all") 3 fate events
        = (Ok (d :: others), ops) ->
        main dd (Some (before ++ [(lit "--" ++ opt, arg)])) fate events net
        = {| said := [DlnapDevice_repr d]; calls := ops;
             ended := Dies (AttributeError opt) |}.
Proof.
  intros Q T Ho.
  destruct (read_options_number before defaults Q T) as [s1 [R1 K1]].
  cbn [timeout defaults] in K1.
  destruct Ho as [-> | ->].
  - change (lit "--" ++ lit "pause") with (lit "--pause").
    rewrite read_options_app, R1, read_option_pause.
    eexists; split; [reflexivity|].
    intros d others ops D. unfold main.
    rewrite read_options_app, R1, read_option_pause.
    unfold discover_timeout. cbn [device] in D.
    cbn [timeout device action]. rewrite K1, D.
    reflexivity.
  - change (lit "--" ++ lit "stop") with (lit "--stop").
    rewrite read_options_app, R1, read_option_stop.
    eexists; split; [reflexivity|].
    intros d others ops D. unfold main.
    rewrite read_options_app, R1, read_option_stop.
    unfold discover_timeout. cbn [device] in D.
    cbn [timeout device action]. rewrite K1, D.
    reflexivity.
Qed.

(** X29. [--play url], given last, prints the first device found and
    sends the two requests for that url to it; the other devices are
    not contacted, and the script ends as [play] does. *)
Theorem play_goes_to_first_device before u events fate net :
  asks_to_quit before = false ->
  gives_timeout before = false ->
  exists s,
    read_options (before ++ [(lit "--play", u)]) defaults = inr s
    /\ forall d others ops,
        discover dd (Some (device s)) (lit "ssdp:all") 3 fate events
        = (Ok (d :: others), ops) ->
        said (main dd (Some (before ++ [(lit "--play", u)])) fate events net)
        = [DlnapDevice_repr d]
        /\ calls (main dd (Some (before ++ [(lit "--play", u)])) fate events net)
           = ops ++ snd (play d u net)
        /\ (ended (main dd (Some (before ++ [(lit "--play", u)])) fate events net)
            = Done
            <-> fst (fst (play d u net)) = Ok tt).
Proof.
  intros Q T.
  destruct (read_options_number before defaults Q T) as [s1 [R1 K1]].
  cbn [timeout defaults] in K1.
  rewrite read_options_app, R1, read_option_play.
  eexists; split; [reflexivity|].
  intros d others ops D. unfold main.
  rewrite read_options_app, R1, read_option_play.
  unfold discover_timeout. cbn [device] in D.
  cbn [timeout device action url]. rewrite K1, D.
  change (is_one_of (lit "play") [[]; lit "list"]) with false. cbv iota.
  change (str_eqb (lit "play") (lit "play")) with true. cbv iota.
  destruct (play d u net) as [[[[]| |] net'] ops'];
    cbn [said calls ended fst snd];
    repeat split; try discriminate; auto.
Qed.

End Command_line_properties.






Section Listing.

Variable dd : char -> option N.


End Listing.

(** *** Concrete runs *)

Lemma quits_without_network_witness :
  calls (main ascii_decimal (Some [(lit "-d", lit "TV"); (lit "-h", [])])
              UdpFine [sample_readable; Timeout] all_fine) = []
  /\ ended (main ascii_decimal (Some [(lit "-d", lit "TV"); (lit "-h", [])])
                 UdpFine [sample_readable; Timeout] all_fine) = Exit 0.
Proof.
  apply (quits_without_network ascii_decimal
           (Some [(lit "-d", lit "TV"); (lit "-h", [])])).
  reflexivity.
Defined.

Lemma timeout_option_raises_witness :
  exists b,
    main ascii_decimal (Some [(lit "-t", lit "5"); (lit "--list", [])])
         UdpFine [sample_readable; Timeout] all_fine
    = {| said := [];
         calls := [OpSocket UDP; OpSendto b SSDP_GROUP];
         ended := Dies (Raised TypeError) |}.
Proof.
  apply (timeout_option_raises ascii_decimal
           [(lit "-t", lit "5"); (lit "--list", [])]); reflexivity.
Defined.

Lemma pause_and_stop_are_missing_witness :
  exists d,
    fst (discover ascii_decimal (Some (lit "TV")) (lit "ssdp:all") 3 UdpFine
                  [sample_readable; Timeout]) = Ok [d]
    /\ ended (main ascii_decimal
                   (Some ([(lit "-d", lit "TV")] ++ [(lit "--" ++ lit "pause", [])]))
                   UdpFine [sample_readable; Timeout] all_fine)
       = Dies (AttributeError (lit "pause")).
Proof.
  destruct (pause_and_stop_are_missing ascii_decimal [(lit "-d", lit "TV")]
              (lit "pause") [] [sample_readable; Timeout] UdpFine all_fine)
    as [s [R K]]; try reflexivity; [left; reflexivity|].
  vm_compute in R. injection R as <-. cbn [device] in K.
  destruct (discover ascii_decimal (Some (lit "TV")) (lit "ssdp:all") 3 UdpFine
                     [sample_readable; Timeout]) as [[[|d [|d2 l]]| |] ops] eqn:E;
    try (vm_compute in E; discriminate).
  exists d. split; [reflexivity|].
  exact (f_equal ended (K d [] ops E)).
Defined.

Lemma play_goes_to_first_device_witness :
  exists d,
    fst (discover ascii_decimal (Some []) (lit "ssdp:all") 3 UdpFine
                  [sample_readable; Timeout]) = Ok [d]
    /\ ended (main ascii_decimal
                   (Some ([] ++ [(lit "--play", lit "http://h/a.mp3")]))
                   UdpFine [sample_readable; Timeout] all_fine)
       = Done.
Proof.
  destruct (play_goes_to_first_device ascii_decimal []
              (lit "http://h/a.mp3") [sample_readable; Timeout] UdpFine all_fine)
    as [s [R K]]; try reflexivity.
  vm_compute in R. injection R as <-. cbn [device] in K.
  destruct (discover ascii_decimal (Some []) (lit "ssdp:all") 3 UdpFine
                     [sample_readable; Timeout]) as [[[|d [|d2 l]]| |] ops] eqn:E;
    try (vm_compute in E; discriminate).
  exists d. split; [reflexivity|].
  destruct (K d [] ops E) as [_ [_ Kd]]. apply Kd.
  vm_compute in E. injection E as <- _. vm_compute. reflexivity.
Defined.

